(** * A shallow embedding of src/App.tsx (the speech-to-text reading aid)

    The file follows the source top-down:
    - [JsString]: JavaScript strings as sequences of UTF-16 code units, with
      the two built-ins the program calls on them ([trim] and truthiness);
    - [FitText]: the [useFitText] hook, i.e. the ResizeObserver callback that
      scans font sizes downward from 150 px;
    - [Session]: the [App] component: its four state cells, the module-level
      [recognition] object, the three recogniser callbacks installed by the
      mount effect, and [toggleListening].
    - [View]: what the components render; [Protocol]: predicates on traces
      and command logs;
    - [ReactQueue]: the same handlers with React's update queue spelled
      out, where setters queue updates and a render runs them.

    src/unnamed/part_000 is an earlier, untyped revision of the same file.
    Its handlers are textually the same; its ResizeObserver callback reads the
    parent's client size once before the scan, which [FitText] models too. *)

From Stdlib Require Import String Ascii.
From Stdlib Require Import List NArith ZArith Bool Lia Sorted Permutation.
Import ListNotations.

(* ================================================================== *)
(** ** JavaScript strings *)
(* ================================================================== *)

Module JsString.

Local Open Scope N_scope.
Local Open Scope bool_scope.

(** A JavaScript string is a finite sequence of 16-bit code units. *)
Definition char16 := N.
Definition jsstring := list char16.

Definition char16_eqb (a b : char16) : bool := N.eqb a b.

(** [===] on two strings: same length and same code units. *)
Fixpoint jsstring_eqb (s t : jsstring) : bool :=
  match s, t with
  | [], [] => true
  | a :: s', b :: t' => char16_eqb a b && jsstring_eqb s' t'
  | _, _ => false
  end.

(** ToBoolean on a string: only the empty string is falsy. *)
Definition truthy (s : jsstring) : bool :=
  match s with
  | [] => false
  | _ :: _ => true
  end.

(** ECMAScript WhiteSpace: TAB, VT, FF, ZWNBSP and the code points of general
    category Zs (all of them in the Basic Multilingual Plane). *)
Definition isWhiteSpace (c : char16) : bool :=
  (c =? 0x0009) || (c =? 0x000B) || (c =? 0x000C) || (c =? 0xFEFF) ||
  (c =? 0x0020) || (c =? 0x00A0) || (c =? 0x1680) ||
  ((0x2000 <=? c) && (c <=? 0x200A)) ||
  (c =? 0x202F) || (c =? 0x205F) || (c =? 0x3000).

(** ECMAScript LineTerminator: LF, CR, LS, PS. *)
Definition isLineTerminator (c : char16) : bool :=
  (c =? 0x000A) || (c =? 0x000D) || (c =? 0x2028) || (c =? 0x2029).

(** What String.prototype.trim strips at both ends. *)
Definition isTrimmable (c : char16) : bool :=
  isWhiteSpace c || isLineTerminator c.

Fixpoint trimStart (s : jsstring) : jsstring :=
  match s with
  | [] => []
  | c :: r => if isTrimmable c then trimStart r else s
  end.

Definition trimEnd (s : jsstring) : jsstring := rev (trimStart (rev s)).

(** String.prototype.trim *)
Definition trim (s : jsstring) : jsstring := trimEnd (trimStart s).

(** [needle] occurs in [hay] as a contiguous run of code units. *)
Definition substring_of (needle hay : jsstring) : Prop :=
  exists pre post, hay = pre ++ needle ++ post.

(** *** Writing literals

    The source file is UTF-8; a literal of the source is written here as the
    same UTF-8 text and decoded to the UTF-16 code units the JavaScript
    engine holds. *)

Fixpoint bytes_of_string (s : string) : list N :=
  match s with
  | EmptyString => []
  | String a r => N_of_ascii a :: bytes_of_string r
  end.

Definition cont (b : N) : N := N.land b 0x3F.

Fixpoint utf16_of_utf8 (bs : list N) : jsstring :=
  match bs with
  | [] => []
  | b0 :: r0 =>
    if b0 <? 0x80 then b0 :: utf16_of_utf8 r0
    else
      match r0 with
      | [] => [0xFFFD]
      | b1 :: r1 =>
        if b0 <? 0xE0 then
          N.lor (N.shiftl (N.land b0 0x1F) 6) (cont b1) :: utf16_of_utf8 r1
        else
          match r1 with
          | [] => [0xFFFD]
          | b2 :: r2 =>
            if b0 <? 0xF0 then
              N.lor (N.shiftl (N.land b0 0x0F) 12)
                    (N.lor (N.shiftl (cont b1) 6) (cont b2))
              :: utf16_of_utf8 r2
            else
              match r2 with
              | [] => [0xFFFD]
              | b3 :: r3 =>
                let cp :=
                  N.lor (N.shiftl (N.land b0 0x07) 18)
                    (N.lor (N.shiftl (cont b1) 12)
                       (N.lor (N.shiftl (cont b2) 6) (cont b3))) in
                let v := cp - 0x10000 in
                (0xD800 + N.shiftr v 10) :: (0xDC00 + N.land v 0x3FF)
                :: utf16_of_utf8 r3
              end
          end
      end
  end.

Definition js (s : string) : jsstring := utf16_of_utf8 (bytes_of_string s).
Arguments js s%_string.

End JsString.

Import JsString.

(* ================================================================== *)
(** ** The auto-fit hook: [useFitText] *)
(* ================================================================== *)

Module FitText.

Local Open Scope Z_scope.
Local Open Scope bool_scope.

(** What the browser's layout reports during one ResizeObserver callback, for
    the displayed text and the viewport as they are at that moment.  Each
    metric is a function of the font size (in px) currently set on the text
    element's style: reading [el.scrollWidth] after [el.style.fontSize = ...]
    forces a synchronous re-layout. *)
Record Layout := {
  scrollWidth  : Z -> Z;   (* el.scrollWidth *)
  scrollHeight : Z -> Z;   (* el.scrollHeight *)
  clientWidth  : Z -> Z;   (* el.parentElement.clientWidth *)
  clientHeight : Z -> Z    (* el.parentElement.clientHeight *)
}.

(** The part of the document the callback reads and writes. *)
Record Dom := {
  style_fontSize : Z;      (* el.style.fontSize, in px *)
  parentElement  : bool;   (* is el.parentElement non-null *)
  layout         : Layout
}.

Definition set_style_fontSize (px : Z) (d : Dom) : Dom :=
  {| style_fontSize := px;
     parentElement := parentElement d;
     layout := layout d |}.

Definition el_scrollWidth (d : Dom) : Z :=
  scrollWidth (layout d) (style_fontSize d).
Definition el_scrollHeight (d : Dom) : Z :=
  scrollHeight (layout d) (style_fontSize d).
Definition parent_clientWidth (d : Dom) : Z :=
  clientWidth (layout d) (style_fontSize d).
Definition parent_clientHeight (d : Dom) : Z :=
  clientHeight (layout d) (style_fontSize d).

(** The loop condition of App.tsx, lines 39-40, without the floor test. *)
Definition overflowing (d : Dom) : bool :=
  (el_scrollWidth d >? parent_clientWidth d) ||
  (el_scrollHeight d >? parent_clientHeight d).

(** The [while] loop of App.tsx, lines 38-45.  [None] is fuel running out. *)
Fixpoint fit_loop (fuel : nat) (currentFontSize : Z) (d : Dom)
  : option (Z * Dom) :=
  match fuel with
  | O => None
  | S fuel' =>
    if overflowing d && (currentFontSize >? 10) then
      let currentFontSize' := currentFontSize - 1 in
      fit_loop fuel' currentFontSize' (set_style_fontSize currentFontSize' d)
    else Some (currentFontSize, d)
  end.

(** One test per size from 150 down to 10. *)
Definition fit_fuel : nat := 141.

(** The ResizeObserver callback of App.tsx, lines 32-47.  It is given the
    hook's [fontSize] state and the document, and returns the new state and
    the document as the loop left it. *)
Definition useFitText_resizeObserver (fontSize : Z) (d : Dom) : option (Z * Dom) :=
  if negb (parentElement d) then Some (fontSize, d)
  else
    let currentFontSize := 150 in
    let d := set_style_fontSize currentFontSize d in
    match fit_loop fit_fuel currentFontSize d with
    | Some (currentFontSize, d) => Some (currentFontSize, d) (* setFontSize *)
    | None => None
    end.

(** The earlier revision (part_000, lines 20-40) measures the parent once,
    before it touches the element's style. *)
Definition overflowing_000 (parentWidth parentHeight : Z) (d : Dom) : bool :=
  (el_scrollWidth d >? parentWidth) || (el_scrollHeight d >? parentHeight).

Fixpoint fit_loop_000 (fuel : nat) (parentWidth parentHeight : Z)
    (currentFontSize : Z) (d : Dom) : option (Z * Dom) :=
  match fuel with
  | O => None
  | S fuel' =>
    if overflowing_000 parentWidth parentHeight d && (currentFontSize >? 10)
    then
      let currentFontSize' := currentFontSize - 1 in
      fit_loop_000 fuel' parentWidth parentHeight currentFontSize'
                   (set_style_fontSize currentFontSize' d)
    else Some (currentFontSize, d)
  end.

Definition useFitText_resizeObserver_000 (fontSize : Z) (d : Dom) : option (Z * Dom) :=
  if negb (parentElement d) then Some (fontSize, d)
  else
    let parentWidth := parent_clientWidth d in
    let parentHeight := parent_clientHeight d in
    let currentFontSize := 150 in
    let d := set_style_fontSize currentFontSize d in
    fit_loop_000 fit_fuel parentWidth parentHeight currentFontSize d.

(** The words of the specification: the text rendered at [size] stays inside
    the container in both directions. *)
Definition fits (L : Layout) (size : Z) : Prop :=
  scrollWidth L size <= clientWidth L size /\
  scrollHeight L size <= clientHeight L size.

(** Overflow never goes away when the font grows. *)
Definition overflow_monotone (L : Layout) : Prop :=
  forall s s', s <= s' -> ~ fits L s -> ~ fits L s'.

(** [r] is the largest size of the range 10..150 that fits. *)
Definition largest_fitting (L : Layout) (r : Z) : Prop :=
  10 <= r <= 150 /\ fits L r /\
  forall s, 10 <= s <= 150 -> fits L s -> s <= r.

Definition nothing_fits (L : Layout) : Prop :=
  forall s, 10 <= s <= 150 -> ~ fits L s.

(** A 400 x 100 container and a text whose box is ten font sizes wide and
    one high: the sizes up to 40 fit. *)
Definition sample_layout : Layout :=
  {| scrollWidth := fun s => 10 * s;
     scrollHeight := fun s => s;
     clientWidth := fun _ => 400;
     clientHeight := fun _ => 100 |}.

(** One character in a 1000 x 1000 container, and any text in a 1 x 1 one. *)
Definition roomy_layout : Layout :=
  {| scrollWidth := fun s => s;
     scrollHeight := fun s => s + s / 4;
     clientWidth := fun _ => 1000;
     clientHeight := fun _ => 1000 |}.

Definition tiny_layout : Layout :=
  {| scrollWidth := fun s => 3 * s;
     scrollHeight := fun s => s + s / 4;
     clientWidth := fun _ => 1;
     clientHeight := fun _ => 1 |}.

Definition dom_of (L : Layout) : Dom :=
  {| style_fontSize := 100; parentElement := true; layout := L |}.

Definition sample_dom : Dom :=
  {| style_fontSize := 100; parentElement := true; layout := sample_layout |}.

End FitText.

(* ================================================================== *)
(** ** The session controller: the [App] component *)
(* ================================================================== *)

Module Session.

Local Open Scope Z_scope.
Local Open Scope bool_scope.

(** *** Data *)

(** interface Message (App.tsx, lines 75-78) *)
Record Message := {
  text : jsstring;
  timestamp : Z
}.

(** The recogniser's payload.  [maxAlternatives] is left at its default of
    one, so a result slot holds one alternative, read as [results[i][0]]. *)
Record SpeechRecognitionAlternative := {
  transcript : jsstring
}.

Record SpeechRecognitionResult := {
  isFinal : bool;
  item0 : SpeechRecognitionAlternative
}.

Record SpeechRecognitionEvent := {
  resultIndex : nat;
  results : list SpeechRecognitionResult
}.

(** The four [useState] cells of [App] (lines 112-115). *)
Record AppState := {
  isListening : bool;
  latestTranscript : jsstring;
  messages : list Message;
  error : jsstring
}.

(** The platform object behind the module-level [recognition] variable.  Its
    [start] and [stop] are commands the platform acts on later; the program
    sees their effect only through the callbacks.  [handlers] records that
    the mount effect has assigned onresult, onend and onerror. *)
Inductive Command := Start | Stop.

Record SpeechRecognition := {
  continuous : bool;
  lang : jsstring;
  interimResults : bool;
  handlers : bool;
  commands : list Command
}.

(** Everything a handler can read or write: the component state, the
    [recognition] variable (null when the browser has no such API) and what
    [Date.now()] returns when an updater calls it. *)
Record World := {
  app : AppState;
  recognition : option SpeechRecognition;
  clock : Z
}.

(** *** Handlers as a state-and-exception monad

    A handler is modelled by the state React reaches once it has run the
    updates the handler queued: the state setters are applied in program
    order, and an updater function passed to a setter receives the cell's
    current value.  (React in production mode runs each updater once.)
    React runs the queued updaters at the render that follows the callback,
    so [clock] stands for what [Date.now()] returns at that render, which
    need not be the time the callback was delivered; [ReactQueue] below
    keeps the two apart, and [ReactQueueFacts.render_after_callback]
    relates the two models.  A thrown exception ends the handler and keeps
    the updates made before it. *)

Inductive JsError := TypeError.

Inductive Completion (A : Type) :=
| Normal (a : A)
| Throw (e : JsError)
| OutOfFuel.
Arguments Normal {A} a.
Arguments Throw {A} e.
Arguments OutOfFuel {A}.

Definition M (A : Type) : Type := World -> World * Completion A.

Definition ret {A} (a : A) : M A := fun w => (w, Normal a).

Definition bind {A B} (c : M A) (k : A -> M B) : M B :=
  fun w =>
    match c w with
    | (w', Normal a) => k a w'
    | (w', Throw e) => (w', Throw e)
    | (w', OutOfFuel) => (w', OutOfFuel)
    end.

Definition liftC {A} (c : Completion A) : M A := fun w => (w, c).

Declare Scope js_scope.
Delimit Scope js_scope with js.
Notation "x <- c ;; k" := (bind c (fun x => k))
  (at level 61, c at next level, right associativity) : js_scope.
Notation "c ;; k" := (bind c (fun _ => k))
  (at level 61, right associativity) : js_scope.
Local Open Scope js_scope.

Definition exec {A} (c : M A) (w : World) : World := fst (c w).
Definition outcome {A} (c : M A) (w : World) : Completion A := snd (c w).

(** Writing one cell leaves the others as they are. *)
Definition with_app (f : AppState -> AppState) (w : World) : World :=
  {| app := f (app w); recognition := recognition w; clock := clock w |}.

Definition setIsListening (b : bool) : M unit :=
  fun w => (with_app (fun s =>
    {| isListening := b; latestTranscript := latestTranscript s;
       messages := messages s; error := error s |}) w, Normal tt).

Definition setLatestTranscript (v : jsstring) : M unit :=
  fun w => (with_app (fun s =>
    {| isListening := isListening s; latestTranscript := v;
       messages := messages s; error := error s |}) w, Normal tt).

Definition setMessages (v : list Message) : M unit :=
  fun w => (with_app (fun s =>
    {| isListening := isListening s; latestTranscript := latestTranscript s;
       messages := v; error := error s |}) w, Normal tt).

Definition setError (v : jsstring) : M unit :=
  fun w => (with_app (fun s =>
    {| isListening := isListening s; latestTranscript := latestTranscript s;
       messages := messages s; error := v |}) w, Normal tt).

(** [setX(prev => ...)]: the updater may itself have effects.  They take
    place when React runs the updater, at the render after the callback. *)
Definition setLatestTranscriptWith (f : jsstring -> M jsstring) : M unit :=
  fun w => (v <- f (latestTranscript (app w)) ;; setLatestTranscript v) w.

Definition setMessagesWith (f : list Message -> M (list Message)) : M unit :=
  fun w => (v <- f (messages (app w)) ;; setMessages v) w.

Definition Date_now : M Z := fun w => (w, Normal (clock w)).

(** A method call on [recognition]: a TypeError when the variable is null. *)
Definition send (c : Command) : M unit :=
  fun w =>
    match recognition w with
    | None => (w, Throw TypeError)
    | Some r =>
      ({| app := app w;
          recognition := Some
            {| continuous := continuous r; lang := lang r;
               interimResults := interimResults r; handlers := handlers r;
               commands := commands r ++ [c] |};
          clock := clock w |}, Normal tt)
    end.

Definition recognition_start : M unit := send Start.
Definition recognition_stop : M unit := send Stop.

(** *** The literals of the source *)

Definition msg_unsupported : jsstring := Eval vm_compute in
  js "이 브라우저는 음성 인식을 지원하지 않습니다. Chrome 또는 Safari 최신 버전을 사용해주세요.".

Definition msg_no_speech : jsstring := Eval vm_compute in
  js "음성이 감지되지 않았습니다. 다시 시도해주세요.".

Definition msg_error_prefix : jsstring := Eval vm_compute in
  js "음성 인식 오류: ".

Definition code_no_speech : jsstring := Eval vm_compute in js "no-speech".

Definition lang_ko_KR : jsstring := Eval vm_compute in js "ko-KR".

(** *** Module initialisation (App.tsx, lines 13-21) *)

Definition initialState : AppState :=
  {| isListening := false; latestTranscript := []; messages := [];
     error := [] |}.

(** [supported]: the window has SpeechRecognition or its webkit twin. *)
Definition initialWorld (supported : bool) (now : Z) : World :=
  {| app := initialState;
     recognition :=
       if supported then
         Some {| continuous := true; lang := lang_ko_KR;
                 interimResults := true; handlers := false; commands := [] |}
       else None;
     clock := now |}.

(** *** recognition.onresult (App.tsx, lines 125-137) *)

(** The [for] loop over [i], with its two accumulators. *)
Fixpoint onresult_loop (fuel : nat) (rs : list SpeechRecognitionResult)
    (i : nat) (interimTranscript finalTranscript : jsstring)
  : Completion (jsstring * jsstring) :=
  match fuel with
  | O => OutOfFuel
  | S fuel' =>
    if (i <? length rs)%nat then
      match nth_error rs i with
      | None => Throw TypeError            (* results[i] is undefined *)
      | Some r =>
        if isFinal r then
          onresult_loop fuel' rs (S i) interimTranscript
                        (finalTranscript ++ transcript (item0 r))
        else
          onresult_loop fuel' rs (S i)
                        (interimTranscript ++ transcript (item0 r))
                        finalTranscript
      end
    else Normal (interimTranscript, finalTranscript)
  end.

Definition onresult (event : SpeechRecognitionEvent) : M unit :=
  acc <- liftC (onresult_loop (S (length (results event))) (results event)
                              (resultIndex event) [] []) ;;
  let '(interimTranscript, finalTranscript) := acc in
  setLatestTranscript (finalTranscript ++ interimTranscript).

(** *** recognition.onend (App.tsx, lines 139-150) *)

Definition onend : M unit :=
  setIsListening false ;;
  setLatestTranscriptWith (fun prev =>
    (if truthy (trim prev) then
       setMessagesWith (fun msgs =>
         now <- Date_now ;;
         ret (msgs ++ [ {| text := trim prev; timestamp := now |} ]))
     else ret tt) ;;
    ret []).

(** *** recognition.onerror (App.tsx, lines 152-159) *)

Definition onerror (event_error : jsstring) : M unit :=
  (if jsstring_eqb event_error code_no_speech then
     setError msg_no_speech
   else
     setError (msg_error_prefix ++ event_error)) ;;
  setIsListening false.

(** *** The mount effect (App.tsx, lines 117-160) *)

Definition install_handlers (r : SpeechRecognition) : SpeechRecognition :=
  {| continuous := continuous r; lang := lang r;
     interimResults := interimResults r; handlers := true;
     commands := commands r |}.

Definition mountEffect : M unit :=
  fun w =>
    match recognition w with
    | None => setError msg_unsupported w
    | Some r =>
      ({| app := app w; recognition := Some (install_handlers r);
          clock := clock w |}, Normal tt)
    end.

(** *** toggleListening (App.tsx, lines 162-171)

    [isListening] is the value of the render the click happened in. *)

Definition toggleListening : M unit :=
  fun w =>
    let isListening := isListening (app w) in
    ((if isListening then
        recognition_stop
      else
        setError [] ;;
        setLatestTranscript [] ;;
        recognition_start) ;;
     setIsListening (negb isListening)) w.

(** *** The program as a transition system *)

Inductive Event :=
| Mounted                                   (* the effect of the first render *)
| Clicked                                   (* the button's onClick *)
| ResultEvent (event : SpeechRecognitionEvent)
| EndEvent
| ErrorEvent (event_error : jsstring).

(** The platform can only call a handler that has been assigned. *)
Definition when_installed (h : M unit) : M unit :=
  fun w =>
    match recognition w with
    | Some r => if handlers r then h w else (w, Normal tt)
    | None => (w, Normal tt)
    end.

Definition dispatch (e : Event) : M unit :=
  match e with
  | Mounted => mountEffect
  | Clicked => toggleListening
  | ResultEvent event => when_installed (onresult event)
  | EndEvent => when_installed onend
  | ErrorEvent c => when_installed (onerror c)
  end.

Definition at_time (now : Z) (w : World) : World :=
  {| app := app w; recognition := recognition w; clock := now |}.

(** One callback together with the render that runs its updates; [fst te]
    is what [Date.now()] returns at that render. *)
Definition step (w : World) (te : Z * Event) : World :=
  exec (dispatch (snd te)) (at_time (fst te) w).

Definition run (w : World) (trace : list (Z * Event)) : World :=
  fold_left step trace w.

(** *** The words of the specification *)

(** The fragments of the slots that carry the given tag, joined in slot
    order; for an event, the slots are those from its start index on. *)
Definition fragments_of (final : bool) (slots : list SpeechRecognitionResult)
  : jsstring :=
  concat (map (fun r => transcript (item0 r))
              (filter (fun r => Bool.eqb (isFinal r) final) slots)).

Definition slots_of (event : SpeechRecognitionEvent)
  : list SpeechRecognitionResult :=
  skipn (resultIndex event) (results event).

Definition finalPart (event : SpeechRecognitionEvent) : jsstring :=
  fragments_of true (slots_of event).
Definition interimPart (event : SpeechRecognitionEvent) : jsstring :=
  fragments_of false (slots_of event).

(** Every message of the history is non-empty after trimming. *)
Definition history_ok (w : World) : Prop :=
  Forall (fun m => trim (text m) <> []) (messages (app w)).


(** *** Sample states *)

(** A browser with the API, after the first render, before any click. *)
Definition world_ready : World := exec mountEffect (initialWorld true 0).

(** A browser without the API, after the first render. *)
Definition world_unsupported : World :=
  exec mountEffect (initialWorld false 0).

Definition with_transcript (t : jsstring) (w : World) : World :=
  exec (setLatestTranscript t) w.

(** Listening, with a greeting and two trailing blanks on the screen. *)
Definition world_greeting : World :=
  at_time 1700000000000
    (with_transcript (js "안녕하세요  ") (exec toggleListening world_ready)).

(** Listening, with three blanks on the screen. *)
Definition world_blank : World :=
  at_time 1700000000000
    (with_transcript (js "   ") (exec toggleListening world_ready)).

Definition slot (final : bool) (t : jsstring) : SpeechRecognitionResult :=
  {| isFinal := final; item0 := {| transcript := t |} |}.

(** An event that reports slots 1..3 of four: one interim between two final. *)
Definition sample_event : SpeechRecognitionEvent :=
  {| resultIndex := 1;
     results := [ slot true (js "old "); slot true (js "one ");
                  slot false (js "three"); slot true (js "two ") ] |}.

End Session.

(* ================================================================== *)
(** ** What the components render *)
(* ================================================================== *)

Module View.

Import Session.
Local Open Scope Z_scope.

(** The prompt of FullScreenTextViewer (App.tsx, line 69). *)
Definition placeholder : jsstring := Eval vm_compute in
  js "마이크 버튼을 누르고 말씀하세요".

(** The text node of FullScreenTextViewer: [text || placeholder]. *)
Definition FullScreenTextViewer (text : jsstring) : jsstring :=
  if truthy text then text else placeholder.

(** One [li] of ConversationHistory (App.tsx, lines 95-103): its React key,
    the instant handed to [new Date] for the time label, and the text of the
    paragraph.  The formatting of the label by toLocaleTimeString is the
    platform's and is not modelled. *)
Record HistoryItem := {
  key : Z;
  date : Z;
  body : jsstring
}.

(** ConversationHistory (App.tsx, lines 80-109): null for an empty list,
    otherwise one item per message, in list order. *)
Definition ConversationHistory (messages : list Message)
  : option (list HistoryItem) :=
  if (length messages =? 0)%nat then None
  else Some (map (fun msg =>
                    {| key := timestamp msg; date := timestamp msg;
                       body := text msg |}) messages).

(** [{error && <p>{error}</p>}] (App.tsx, line 184). *)
Definition errorParagraph (error : jsstring) : option jsstring :=
  if truthy error then Some error else None.

(** The two labels of the button (App.tsx, lines 199-223). *)
Definition label_listening : jsstring := Eval vm_compute in
  js "대화 듣는 중...".
Definition label_start : jsstring := Eval vm_compute in
  js "🎤 대화 시작".

(** What [App] returns (App.tsx, lines 173-233), without the styling. *)
Record AppView := {
  viewer : jsstring;
  history : option (list HistoryItem);
  errorShown : option jsstring;
  listeningBorder : bool;
  buttonLabel : jsstring
}.

Definition render (s : AppState) : AppView :=
  {| viewer := FullScreenTextViewer (latestTranscript s);
     history := ConversationHistory (messages s);
     errorShown := errorParagraph (error s);
     listeningBorder := isListening s;
     buttonLabel := if isListening s then label_listening else label_start |}.

End View.

(* ================================================================== *)
(** ** Reading traces and command logs *)
(* ================================================================== *)

Module Protocol.

Import Session.

(** Reads a log of commands from the left.  The flag says whether the
    command before was a start; a stop that does not come right after a
    start makes the reading fail. *)
Fixpoint read_log (after_start : bool) (log : list Command) : option bool :=
  match log with
  | [] => Some after_start
  | Start :: log' => read_log true log'
  | Stop :: log' => if after_start then read_log false log' else None
  end.

(** Every stop of the log comes right after a start. *)
Definition stops_follow_starts (log : list Command) : Prop :=
  forall pre post, log = pre ++ Stop :: post ->
                   exists pre', pre = pre' ++ [Start].

Definition is_end (te : Z * Event) : bool :=
  match snd te with
  | EndEvent => true
  | _ => false
  end.

(** The number of end-of-session callbacks of a trace. *)
Definition count_ends (trace : list (Z * Event)) : nat :=
  length (filter is_end trace).

(** The message texts as the data model wants them: not empty, and with no
    code unit at either end that [trim] would strip. *)
Definition trimmed (s : jsstring) : Prop :=
  s <> [] /\ trim s = s /\
  (forall c r, s = c :: r -> isTrimmable c = false) /\
  (forall c r, rev s = c :: r -> isTrimmable c = false).

(** The fragments of a slot list, in slot order. *)
Definition fragment_list (slots : list SpeechRecognitionResult)
  : list jsstring :=
  map (fun r => transcript (item0 r)) slots.

(** A state a click or a recogniser callback can meet once the mount effect
    has run in a browser with the recogniser. *)
Definition installed (w : World) : Prop :=
  exists r, recognition w = Some r /\ handlers r = true.

(** The recogniser stays as configured, and its log reads well, with a
    start as the last command whenever the program is listening. *)
Definition log_ok (w : World) : Prop :=
  exists r b,
    recognition w = Some r /\
    continuous r = true /\ interimResults r = true /\ lang r = lang_ko_KR /\
    read_log false (commands r) = Some b /\
    (isListening (app w) = true -> b = true).

(** Listening, the handlers installed, [one two ] on the screen. *)
Definition world_talking : World :=
  with_transcript (js "one two ") (exec toggleListening world_ready).

End Protocol.

(* ================================================================== *)
(** ** React's update queue *)
(* ================================================================== *)

(** [Session] gives the state a handler leads to once React has run the
    updates it queued.  This module spells the queue out: a setter called in
    a handler changes nothing at once; it adds an update to the queue of its
    state cell, and React runs the queues, in the order of the [useState]
    calls, at the next render.  An updater function is called then, so the
    [Date.now()] inside the updater of [onend] is read at the render, not
    when the end callback is delivered. *)

Module ReactQueue.

Import Session.
Local Open Scope Z_scope.

(** A queued call of [setLatestTranscript]: a value, or the updater that
    [onend] passes (App.tsx, lines 141-149). *)
Inductive TranscriptUpdate :=
| TValue (v : jsstring)
| TOnEnd.

(** A queued call of [setMessages]: the updater of App.tsx, lines 143-146,
    with the [prev] it has captured. *)
Inductive MessagesUpdate :=
| MAppend (prev : jsstring).

(** One queue per state cell; [setIsListening] and [setError] are only
    ever called with values. *)
Record Queues := {
  q_isListening : list bool;
  q_latestTranscript : list TranscriptUpdate;
  q_messages : list MessagesUpdate;
  q_error : list jsstring
}.

Definition no_updates : Queues :=
  {| q_isListening := []; q_latestTranscript := []; q_messages := [];
     q_error := [] |}.

(** The component between two renders: the state of the last render (what
    the screen shows and what [toggleListening] reads), the updates queued
    since, the [recognition] variable and the reading of the clock. *)
Record Component := {
  shown : AppState;
  pending : Queues;
  platform : option SpeechRecognition;
  reading : Z
}.

Definition with_pending (f : Queues -> Queues) (c : Component) : Component :=
  {| shown := shown c; pending := f (pending c); platform := platform c;
     reading := reading c |}.

Definition queue_setIsListening (b : bool) : Component -> Component :=
  with_pending (fun q =>
    {| q_isListening := q_isListening q ++ [b];
       q_latestTranscript := q_latestTranscript q;
       q_messages := q_messages q; q_error := q_error q |}).

Definition queue_setLatestTranscript (u : TranscriptUpdate)
  : Component -> Component :=
  with_pending (fun q =>
    {| q_isListening := q_isListening q;
       q_latestTranscript := q_latestTranscript q ++ [u];
       q_messages := q_messages q; q_error := q_error q |}).

Definition queue_setError (v : jsstring) : Component -> Component :=
  with_pending (fun q =>
    {| q_isListening := q_isListening q;
       q_latestTranscript := q_latestTranscript q;
       q_messages := q_messages q; q_error := q_error q ++ [v] |}).

(** A method call on [recognition], as [Session.send]. *)
Definition queue_send (cmd : Command) (c : Component)
  : Component * Completion unit :=
  match platform c with
  | None => (c, Throw TypeError)
  | Some r =>
    ({| shown := shown c; pending := pending c;
        platform := Some
          {| continuous := continuous r; lang := lang r;
             interimResults := interimResults r; handlers := handlers r;
             commands := commands r ++ [cmd] |};
        reading := reading c |}, Normal tt)
  end.

(** *** The handlers, as what they queue *)

Definition onresult_queued (event : SpeechRecognitionEvent) (c : Component)
  : Component * Completion unit :=
  match onresult_loop (S (length (results event))) (results event)
                      (resultIndex event) [] [] with
  | Normal (interimTranscript, finalTranscript) =>
    (queue_setLatestTranscript
       (TValue (finalTranscript ++ interimTranscript)) c, Normal tt)
  | Throw e => (c, Throw e)
  | OutOfFuel => (c, OutOfFuel)
  end.

Definition onend_queued (c : Component) : Component * Completion unit :=
  (queue_setLatestTranscript TOnEnd (queue_setIsListening false c),
   Normal tt).

Definition onerror_queued (event_error : jsstring) (c : Component)
  : Component * Completion unit :=
  (queue_setIsListening false
     (queue_setError
        (if jsstring_eqb event_error code_no_speech then msg_no_speech
         else msg_error_prefix ++ event_error) c),
   Normal tt).

Definition mountEffect_queued (c : Component) : Component * Completion unit :=
  match platform c with
  | None => (queue_setError msg_unsupported c, Normal tt)
  | Some r =>
    ({| shown := shown c; pending := pending c;
        platform := Some (install_handlers r); reading := reading c |},
     Normal tt)
  end.

(** [isListening] is the value of the last render. *)
Definition toggleListening_queued (c : Component)
  : Component * Completion unit :=
  let isListening := isListening (shown c) in
  let '(c, sent) :=
    if isListening then queue_send Stop c
    else
      queue_send Start
        (queue_setLatestTranscript (TValue []) (queue_setError [] c)) in
  match sent with
  | Normal _ => (queue_setIsListening (negb isListening) c, Normal tt)
  | Throw e => (c, Throw e)
  | OutOfFuel => (c, OutOfFuel)
  end.

(** *** The render *)

Definition last_value {A} (q : list A) (value : A) : A :=
  fold_left (fun _ v => v) q value.

(** The queue of [latestTranscript].  The updater of [onend] is called on
    the value the earlier updates of the queue have led to; its call of
    [setMessages] adds to the queue of [messages], which React runs next. *)
Fixpoint run_transcript_queue (q : list TranscriptUpdate) (value : jsstring)
    (qm : list MessagesUpdate) : jsstring * list MessagesUpdate :=
  match q with
  | [] => (value, qm)
  | TValue v :: q' => run_transcript_queue q' v qm
  | TOnEnd :: q' =>
    run_transcript_queue q' []
      (if truthy (trim value) then qm ++ [MAppend value] else qm)
  end.

(** The queue of [messages], with [now] what [Date.now()] returns. *)
Definition run_messages_update (now : Z) (msgs : list Message)
    (u : MessagesUpdate) : list Message :=
  match u with
  | MAppend prev => msgs ++ [ {| text := trim prev; timestamp := now |} ]
  end.

Definition run_messages_queue (now : Z) (q : list MessagesUpdate)
    (msgs : list Message) : list Message :=
  fold_left (run_messages_update now) q msgs.

(** A render at clock reading [now]: every queue is run and emptied. *)
Definition render (now : Z) (c : Component) : Component :=
  let q := pending c in
  let s := shown c in
  let '(transcript', qm) :=
    run_transcript_queue (q_latestTranscript q) (latestTranscript s)
                         (q_messages q) in
  {| shown :=
       {| isListening := last_value (q_isListening q) (isListening s);
          latestTranscript := transcript';
          messages := run_messages_queue now qm (messages s);
          error := last_value (q_error q) (error s) |};
     pending := no_updates;
     platform := platform c;
     reading := now |}.

(** *** Traces of callbacks and renders *)

Inductive Occurrence :=
| Callback (e : Event)      (* the browser delivers a callback or a click *)
| Render.                   (* React renders *)

Definition when_installed_queued
    (h : Component -> Component * Completion unit) (c : Component)
  : Component * Completion unit :=
  match platform c with
  | Some r => if handlers r then h c else (c, Normal tt)
  | None => (c, Normal tt)
  end.

Definition deliver (e : Event) (c : Component)
  : Component * Completion unit :=
  match e with
  | Mounted => mountEffect_queued c
  | Clicked => toggleListening_queued c
  | ResultEvent event => when_installed_queued (onresult_queued event) c
  | EndEvent => when_installed_queued onend_queued c
  | ErrorEvent code => when_installed_queued (onerror_queued code) c
  end.

Definition at_reading (now : Z) (c : Component) : Component :=
  {| shown := shown c; pending := pending c; platform := platform c;
     reading := now |}.

(** What happens when the clock reads [fst o]. *)
Definition occur (c : Component) (o : Z * Occurrence) : Component :=
  match snd o with
  | Callback e => fst (deliver e (at_reading (fst o) c))
  | Render => render (fst o) c
  end.

Definition play (c : Component) (trace : list (Z * Occurrence)) : Component :=
  fold_left occur trace c.

(** A world of [Session] as a freshly rendered component, and back. *)
Definition component_of (w : World) : Component :=
  {| shown := app w; pending := no_updates; platform := recognition w;
     reading := clock w |}.

Definition world_of (c : Component) : World :=
  {| app := shown c; recognition := platform c; clock := reading c |}.

Definition initialComponent (supported : bool) (now : Z) : Component :=
  component_of (initialWorld supported now).

(** The message an update of the [messages] queue adds when the clock
    reads [now]. *)
Definition stamped (now : Z) (u : MessagesUpdate) : Message :=
  match u with
  | MAppend prev => {| text := trim prev; timestamp := now |}
  end.

(** Two sessions whose end callbacks are both handled by the render at 7. *)
Definition two_sessions_one_render : list (Z * Occurrence) :=
  [ (1, Callback Mounted);
    (2, Callback Clicked); (2, Render);
    (3, Callback (ResultEvent sample_event)); (3, Render);
    (4, Callback EndEvent);
    (5, Callback (ResultEvent sample_event));
    (6, Callback EndEvent);
    (7, Render) ].


End ReactQueue.

(* ================================================================== *)
(** ** Facts about strings *)
(* ================================================================== *)

Module JsStringFacts.

Lemma jsstring_eqb_eq (s t : jsstring) : jsstring_eqb s t = true <-> s = t.
Proof.
  revert t; induction s as [|a s IH]; intros [|b t]; simpl;
    try (split; congruence).
  unfold char16_eqb. rewrite andb_true_iff, N.eqb_eq, IH.
  split; [intros [-> ->]; reflexivity | intros H; inversion H; auto].
Qed.

Lemma jsstring_eqb_neq (s t : jsstring) : jsstring_eqb s t = false <-> s <> t.
Proof.
  rewrite <- jsstring_eqb_eq. destruct (jsstring_eqb s t); split; congruence.
Qed.

Lemma truthy_nonempty (s : jsstring) : truthy s = true <-> s <> [].
Proof. destruct s; simpl; split; congruence. Qed.

Lemma truthy_empty (s : jsstring) : truthy s = false <-> s = [].
Proof. destruct s; simpl; split; congruence. Qed.

(** [trimStart] stops at the first code unit it may not strip. *)
Lemma trimStart_keep (c : char16) (r : jsstring) :
  isTrimmable c = false -> trimStart (c :: r) = c :: r.
Proof. intros H; simpl; rewrite H; reflexivity. Qed.

Lemma trimStart_head (s : jsstring) :
  trimStart s = [] \/
  exists c r, trimStart s = c :: r /\ isTrimmable c = false.
Proof.
  induction s as [|c r IH]; simpl; [left; reflexivity|].
  destruct (isTrimmable c) eqn:E; [exact IH | right; eauto].
Qed.

Lemma trimStart_idempotent (s : jsstring) :
  trimStart (trimStart s) = trimStart s.
Proof.
  destruct (trimStart_head s) as [-> | (c & r & -> & H)];
    [reflexivity | apply trimStart_keep, H].
Qed.

Lemma trimStart_app_keep (l : jsstring) (c : char16) (t : jsstring) :
  isTrimmable c = false ->
  trimStart (l ++ c :: t) = trimStart l ++ c :: t.
Proof.
  intros H; induction l as [|a l IH]; simpl.
  - rewrite H; reflexivity.
  - destruct (isTrimmable a); [exact IH | reflexivity].
Qed.

Lemma trimEnd_cons_keep (c : char16) (r : jsstring) :
  isTrimmable c = false -> trimEnd (c :: r) = c :: trimEnd r.
Proof.
  intros H; unfold trimEnd; simpl.
  rewrite (trimStart_app_keep _ _ [] H), rev_app_distr; reflexivity.
Qed.

Lemma trimEnd_idempotent (s : jsstring) : trimEnd (trimEnd s) = trimEnd s.
Proof.
  unfold trimEnd; rewrite rev_involutive, trimStart_idempotent; reflexivity.
Qed.

Lemma trim_nil : trim [] = [].
Proof. reflexivity. Qed.

(** Trimming a trimmed string changes nothing. *)
Lemma trim_idempotent (s : jsstring) : trim (trim s) = trim s.
Proof.
  unfold trim.
  destruct (trimStart_head s) as [-> | (c & r & -> & H)]; [reflexivity|].
  rewrite (trimEnd_cons_keep _ _ H), (trimStart_keep _ _ H).
  rewrite <- (trimEnd_cons_keep _ _ H). apply trimEnd_idempotent.
Qed.

(** A string made of strippable code units only trims to the empty one. *)
Lemma trim_all_trimmable (s : jsstring) :
  forallb isTrimmable s = true -> trim s = [].
Proof.
  intros H; unfold trim.
  assert (E : trimStart s = []).
  { induction s as [|c r IH]; simpl in *; [reflexivity|].
    apply andb_true_iff in H as [-> H]; auto. }
  rewrite E; reflexivity.
Qed.

End JsStringFacts.

(* ================================================================== *)
(** ** Facts about the auto-fit scan *)
(* ================================================================== *)

Module FitTextFacts.

Import FitText.
Local Open Scope Z_scope.

Lemma overflowing_false (d : Dom) :
  overflowing d = false <-> fits (layout d) (style_fontSize d).
Proof.
  unfold overflowing, fits, el_scrollWidth, el_scrollHeight,
    parent_clientWidth, parent_clientHeight.
  rewrite orb_false_iff, !Z.gtb_ltb, !Z.ltb_ge. reflexivity.
Qed.

Lemma overflowing_true (d : Dom) :
  overflowing d = true <-> ~ fits (layout d) (style_fontSize d).
Proof.
  rewrite <- overflowing_false. destruct (overflowing d); split; congruence.
Qed.

(** What the scan has established when it stops: it stops, with the style
    set to the size it returns; every size it passed over overflows; and the
    size it stops at fits unless it is the floor. *)
Lemma fit_loop_scan (fuel : nat) :
  forall (cur : Z) (d : Dom),
    style_fontSize d = cur ->
    10 <= cur ->
    (Z.to_nat (cur - 10) < fuel)%nat ->
    exists r,
      fit_loop fuel cur d = Some (r, set_style_fontSize r d) /\
      10 <= r <= cur /\
      (forall s, r < s <= cur -> ~ fits (layout d) s) /\
      (fits (layout d) r \/ r = 10).
Proof.
  induction fuel as [|fuel IH]; intros cur d Hd Hlo Hfuel; [lia|].
  simpl. destruct (overflowing d) eqn:Eo; simpl.
  - destruct (Z.gtb_spec cur 10) as [Hgt | Hle].
    + destruct (IH (cur - 1) (set_style_fontSize (cur - 1) d))
        as (r & Hr & Hrange & Habove & Hstop); [reflexivity | lia | lia |].
      exists r. simpl in *. split; [exact Hr|].
      split; [lia|]. split; [|exact Hstop].
      intros s Hs. destruct (Z.eq_dec s cur) as [-> | Hne].
      * rewrite <- Hd. apply overflowing_true, Eo.
      * apply Habove; lia.
    + exists cur. assert (cur = 10) by lia. subst cur.
      split; [destruct d; simpl in *; subst; reflexivity|].
      split; [lia|]. split; [intros; lia | right; lia].
  - exists cur.
    split; [destruct d; simpl in *; subst; reflexivity|].
    split; [lia|]. split; [intros; lia|].
    left. rewrite <- Hd. apply overflowing_false, Eo.
Qed.

(** The callback always returns, whatever the layout reports, and what it
    returns is the largest fitting size of the range, or the floor when no
    size of the range fits.  No assumption on the layout is needed: scanning
    downward one pixel at a time meets the largest fitting size first. *)
Lemma useFitText_scan (fontSize : Z) (d : Dom) :
  parentElement d = true ->
  exists r,
    useFitText_resizeObserver fontSize d = Some (r, set_style_fontSize r d) /\
    (largest_fitting (layout d) r \/ (nothing_fits (layout d) /\ r = 10)).
Proof.
  intros Hp. unfold useFitText_resizeObserver. rewrite Hp. cbn [negb]. cbv zeta.
  destruct (fit_loop_scan fit_fuel 150 (set_style_fontSize 150 d))
    as (r & Hr & Hrange & Habove & Hstop);
    [reflexivity | lia | unfold fit_fuel; simpl; lia |].
  exists r. rewrite Hr. simpl in *. split; [reflexivity|].
  destruct Hstop as [Hfit | ->].
  - left. split; [exact Hrange|]. split; [exact Hfit|].
    intros s Hs Hfs. destruct (Z_le_gt_dec s r); [assumption|].
    exfalso. apply (Habove s); [lia | exact Hfs].
  - destruct (overflowing (set_style_fontSize 10 d)) eqn:Eo.
    + right. split; [|reflexivity]. intros s Hs.
      destruct (Z.eq_dec s 10) as [-> | Hne].
      * apply overflowing_true in Eo. exact Eo.
      * apply Habove; lia.
    + left. apply overflowing_false in Eo. simpl in Eo.
      split; [lia|]. split; [exact Eo|].
      intros s Hs Hfs. destruct (Z_le_gt_dec s 10); [assumption|].
      exfalso. apply (Habove s); [lia | exact Hfs].
Qed.

(** The earlier revision computes the same size whenever the parent's
    client size does not depend on the font size of the text. *)
Lemma fit_loop_000_same (fuel : nat) :
  forall (cur : Z) (d : Dom) (W H : Z),
    (forall s, clientWidth (layout d) s = W) ->
    (forall s, clientHeight (layout d) s = H) ->
    fit_loop_000 fuel W H cur d = fit_loop fuel cur d.
Proof.
  induction fuel as [|fuel IH]; intros cur d W H HW HH; [reflexivity|].
  simpl.
  assert (E : overflowing_000 W H d = overflowing d).
  { unfold overflowing_000, overflowing, parent_clientWidth,
      parent_clientHeight. rewrite HW, HH. reflexivity. }
  rewrite E. destruct (overflowing d && (cur >? 10))%bool; [|reflexivity].
  apply IH; assumption.
Qed.

Lemma useFitText_resizeObserver_000_same (fontSize : Z) (d : Dom) (W H : Z) :
  (forall s, clientWidth (layout d) s = W) ->
  (forall s, clientHeight (layout d) s = H) ->
  useFitText_resizeObserver_000 fontSize d = useFitText_resizeObserver fontSize d.
Proof.
  intros HW HH. unfold useFitText_resizeObserver_000, useFitText_resizeObserver.
  destruct (negb (parentElement d)); [reflexivity|].
  cbv zeta. unfold parent_clientWidth, parent_clientHeight.
  rewrite (fit_loop_000_same fit_fuel 150 (set_style_fontSize 150 d)
             (clientWidth (layout d) (style_fontSize d))
             (clientHeight (layout d) (style_fontSize d))).
  - destruct (fit_loop fit_fuel 150 (set_style_fontSize 150 d))
      as [[? ?]|]; reflexivity.
  - intros s. simpl. rewrite (HW s), (HW (style_fontSize d)). reflexivity.
  - intros s. simpl. rewrite (HH s), (HH (style_fontSize d)). reflexivity.
Qed.

(** C2.  For every text and every container (every [Layout]), if overflow is
    monotone in the font size, the ResizeObserver callback returns, and the
    font size it sets is the largest integer of 10..150 at which the text's
    scroll width and height stay within the parent's client width and
    height; when no size of 10..150 fits it is exactly 10.  (The premise of
    monotonicity is the claim's; [useFitText_scan] shows the scan does not
    depend on it.) *)
Theorem useFitText_largest_fit (fontSize : Z) (d : Dom) :
  parentElement d = true ->
  overflow_monotone (layout d) ->
  exists r,
    useFitText_resizeObserver fontSize d = Some (r, set_style_fontSize r d) /\
    10 <= r <= 150 /\
    (largest_fitting (layout d) r \/ (nothing_fits (layout d) /\ r = 10)).
Proof.
  intros Hp _.
  destruct (useFitText_scan fontSize d Hp) as (r & Hr & Hcases).
  exists r. split; [exact Hr|]. split; [|exact Hcases].
  destruct Hcases as [[Hrange _] | [_ ->]]; lia.
Qed.

Example useFitText_sample :
  useFitText_resizeObserver 100 sample_dom = Some (40, set_style_fontSize 40 sample_dom).
Proof. vm_compute. reflexivity. Qed.

Example useFitText_roomy :
  option_map fst (useFitText_resizeObserver 100 (dom_of roomy_layout)) =
  Some 150.
Proof. vm_compute. reflexivity. Qed.

Example useFitText_tiny :
  option_map fst (useFitText_resizeObserver 100 (dom_of tiny_layout)) =
  Some 10.
Proof. vm_compute. reflexivity. Qed.

Lemma sample_layout_monotone : overflow_monotone sample_layout.
Proof.
  unfold overflow_monotone, fits, sample_layout.
  cbn [scrollWidth scrollHeight clientWidth clientHeight]. intros; lia.
Qed.

Lemma useFitText_largest_fit_witness :
  exists r,
    useFitText_resizeObserver 100 sample_dom = Some (r, set_style_fontSize r sample_dom) /\
    10 <= r <= 150 /\
    (largest_fitting (layout sample_dom) r \/
     (nothing_fits (layout sample_dom) /\ r = 10)).
Proof.
  apply (useFitText_largest_fit 100 sample_dom);
    [reflexivity | exact sample_layout_monotone].
Defined.

End FitTextFacts.

(* ================================================================== *)
(** ** Facts about the session controller *)
(* ================================================================== *)

Module SessionFacts.

Import Session JsStringFacts.
Local Open Scope Z_scope.
Local Open Scope js_scope.

(** *** The result callback *)

Lemma skipn_nth_error {A} (l : list A) :
  forall i x, nth_error l i = Some x -> skipn i l = x :: skipn (S i) l.
Proof.
  induction l as [|a l IH]; intros [|i] x H; simpl in *; try discriminate.
  - congruence.
  - apply IH, H.
Qed.

Lemma fragments_of_cons (b : bool) (r : SpeechRecognitionResult) l :
  fragments_of b (r :: l) =
  (if Bool.eqb (isFinal r) b then transcript (item0 r) else [])
  ++ fragments_of b l.
Proof.
  unfold fragments_of; simpl.
  destruct (Bool.eqb (isFinal r) b); reflexivity.
Qed.

(** The loop leaves in each accumulator what it held on entry, followed by
    the fragments with the accumulator's tag from slot [i] on. *)
Lemma onresult_loop_spec (fuel : nat) :
  forall rs i interim final,
    (length rs - i < fuel)%nat ->
    onresult_loop fuel rs i interim final =
    Normal (interim ++ fragments_of false (skipn i rs),
            final ++ fragments_of true (skipn i rs)).
Proof.
  induction fuel as [|fuel IH]; intros rs i interim final Hfuel; [lia|].
  simpl. destruct (Nat.ltb_spec i (length rs)) as [Hlt | Hge].
  - destruct (nth_error rs i) as [r|] eqn:E;
      [|apply nth_error_None in E; lia].
    rewrite (skipn_nth_error _ _ _ E), !fragments_of_cons.
    destruct (isFinal r); rewrite IH by lia; simpl;
      rewrite <- ?app_assoc; reflexivity.
  - rewrite skipn_all2 by lia. unfold fragments_of; simpl.
    rewrite !app_nil_r; reflexivity.
Qed.

Lemma onresult_run (event : SpeechRecognitionEvent) (w : World) :
  onresult event w =
  setLatestTranscript (finalPart event ++ interimPart event) w.
Proof.
  unfold onresult, bind, liftC.
  rewrite onresult_loop_spec by lia. reflexivity.
Qed.

(** C1.  For every event and every state (listening or not), the result
    handler returns normally and leaves in the live transcript the event's
    final fragments from its start index on, in slot order, followed by its
    interim fragments in slot order; the former transcript plays no part. *)
Theorem onresult_final_then_interim
    (event : SpeechRecognitionEvent) (w : World) :
  outcome (onresult event) w = Normal tt /\
  latestTranscript (app (exec (onresult event) w)) =
    finalPart event ++ interimPart event.
Proof.
  unfold outcome, exec. rewrite onresult_run. split; reflexivity.
Qed.

Example onresult_sample :
  latestTranscript (app (exec (onresult sample_event) world_greeting)) =
  js "one two three".
Proof. vm_compute. reflexivity. Qed.

(** C10.  The result handler writes the live transcript only: history,
    listening flag and error text are as before (and so are the recogniser
    object and the clock). *)
Theorem onresult_frame (event : SpeechRecognitionEvent) (w : World) :
  messages (app (exec (onresult event) w)) = messages (app w) /\
  isListening (app (exec (onresult event) w)) = isListening (app w) /\
  error (app (exec (onresult event) w)) = error (app w) /\
  recognition (exec (onresult event) w) = recognition w /\
  clock (exec (onresult event) w) = clock w.
Proof.
  unfold exec. rewrite onresult_run. repeat split; reflexivity.
Qed.

(** *** The end-of-session callback *)

(** What [onend] does, by cases on the trimmed transcript. *)
Lemma onend_run (w : World) :
  onend w =
  ({| app :=
        {| isListening := false;
           latestTranscript := [];
           messages :=
             if truthy (trim (latestTranscript (app w))) then
               messages (app w) ++
               [ {| text := trim (latestTranscript (app w));
                    timestamp := clock w |} ]
             else messages (app w);
           error := error (app w) |};
      recognition := recognition w;
      clock := clock w |}, Normal tt).
Proof.
  unfold onend, setLatestTranscriptWith, setMessagesWith, bind. simpl.
  destruct (truthy (trim (latestTranscript (app w)))); reflexivity.
Qed.

(** What [onend] leads to when the live transcript trims to a non-empty
    string: one more message, whose text is the trimmed transcript and
    whose timestamp is [clock w], the reading of [Date.now()] when React
    runs the updater; an empty transcript; the listening flag off. *)
Theorem onend_flushes_transcript (w : World) :
  trim (latestTranscript (app w)) <> [] ->
  outcome onend w = Normal tt /\
  messages (app (exec onend w)) =
    messages (app w) ++
    [ {| text := trim (latestTranscript (app w)); timestamp := clock w |} ] /\
  latestTranscript (app (exec onend w)) = [] /\
  isListening (app (exec onend w)) = false.
Proof.
  intros H. apply truthy_nonempty in H.
  unfold outcome, exec. rewrite onend_run. simpl. rewrite H.
  repeat split; reflexivity.
Qed.

Lemma onend_flushes_transcript_witness :
  outcome onend world_greeting = Normal tt /\
  messages (app (exec onend world_greeting)) =
    messages (app world_greeting) ++
    [ {| text := trim (latestTranscript (app world_greeting));
         timestamp := clock world_greeting |} ] /\
  latestTranscript (app (exec onend world_greeting)) = [] /\
  isListening (app (exec onend world_greeting)) = false.
Proof.
  apply (onend_flushes_transcript world_greeting).
  vm_compute. discriminate.
Defined.

Example onend_greeting :
  messages (app (exec onend world_greeting)) =
  [ {| text := js "안녕하세요"; timestamp := 1700000000000 |} ].
Proof. vm_compute. reflexivity. Qed.

Example onend_blank :
  messages (app (exec onend world_blank)) = [].
Proof. vm_compute. reflexivity. Qed.

(** *** The error callback *)

Lemma onerror_run (code : jsstring) (w : World) :
  onerror code w =
  ({| app :=
        {| isListening := false;
           latestTranscript := latestTranscript (app w);
           messages := messages (app w);
           error :=
             if jsstring_eqb code code_no_speech then msg_no_speech
             else msg_error_prefix ++ code |};
      recognition := recognition w;
      clock := clock w |}, Normal tt).
Proof.
  unfold onerror, bind.
  destruct (jsstring_eqb code code_no_speech); reflexivity.
Qed.

(** The no-speech text is not the generic text of any code. *)
Lemma msg_no_speech_distinguished (code : jsstring) :
  msg_no_speech <> msg_error_prefix ++ code.
Proof. unfold msg_no_speech, msg_error_prefix; simpl; congruence. Qed.

(** C7.  The error handler returns normally and clears the listening flag;
    for the code no-speech it sets the error text to the no-speech message;
    for every other code it sets it to the generic prefix followed by the
    code, so the code occurs in it; and the no-speech message is never the
    generic message of some code. *)
Theorem onerror_message (code : jsstring) (w : World) :
  outcome (onerror code) w = Normal tt /\
  isListening (app (exec (onerror code) w)) = false /\
  (code = code_no_speech ->
     error (app (exec (onerror code) w)) = msg_no_speech) /\
  (code <> code_no_speech ->
     error (app (exec (onerror code) w)) = msg_error_prefix ++ code /\
     substring_of code (error (app (exec (onerror code) w)))) /\
  (forall c, msg_no_speech <> msg_error_prefix ++ c).
Proof.
  unfold outcome, exec. rewrite onerror_run. simpl.
  split; [reflexivity|]. split; [reflexivity|]. split; [|split].
  - intros ->. reflexivity.
  - intros H. apply jsstring_eqb_neq in H. rewrite H.
    split; [reflexivity|]. exists msg_error_prefix, [].
    rewrite app_nil_r. reflexivity.
  - exact msg_no_speech_distinguished.
Qed.

Lemma onerror_message_witness :
  error (app (exec (onerror code_no_speech) world_greeting)) = msg_no_speech /\
  substring_of (js "network")
    (error (app (exec (onerror (js "network")) world_greeting))).
Proof.
  split.
  - apply (onerror_message code_no_speech world_greeting). reflexivity.
  - apply (onerror_message (js "network") world_greeting).
    vm_compute. discriminate.
Defined.

(** C8.  Whatever the code, the error handler leaves history and live
    transcript as they were: nothing is flushed. *)
Theorem onerror_frame (code : jsstring) (w : World) :
  messages (app (exec (onerror code) w)) = messages (app w) /\
  latestTranscript (app (exec (onerror code) w)) = latestTranscript (app w).
Proof.
  unfold exec. rewrite onerror_run. split; reflexivity.
Qed.

(** *** The toggle *)



(** A toggle while listening sends one stop command and clears the flag at
    once, before the recogniser has reported the end of the session. *)
Lemma toggle_from_listening_stops (w : World) (r : SpeechRecognition) :
  isListening (app w) = true ->
  recognition w = Some r ->
  outcome toggleListening w = Normal tt /\
  isListening (app (exec toggleListening w)) = false /\
  latestTranscript (app (exec toggleListening w)) = latestTranscript (app w) /\
  (exists r', recognition (exec toggleListening w) = Some r' /\
              commands r' = commands r ++ [Stop]).
Proof.
  intros Hl Hrec.
  unfold outcome, exec, toggleListening, bind, recognition_stop, send.
  rewrite Hl. simpl. rewrite Hrec. simpl.
  repeat split; try reflexivity. eexists; split; reflexivity.
Qed.

(** *** A browser without the recogniser *)

(** The mount effect reports the missing API, and nothing else changes. *)
Lemma mount_unsupported (now : Z) :
  mountEffect (initialWorld false now) =
  ({| app := {| isListening := false; latestTranscript := [];
                messages := []; error := msg_unsupported |};
      recognition := None; clock := now |}, Normal tt).
Proof. reflexivity. Qed.

(** With [recognition] null, a toggle in the idle state has already set the
    error text and the live transcript to the empty string when the call of
    [recognition.start] throws. *)
Lemma toggle_without_recognition (w : World) :
  recognition w = None ->
  isListening (app w) = false ->
  toggleListening w =
  ({| app := {| isListening := false; latestTranscript := [];
                messages := messages (app w); error := [] |};
      recognition := None; clock := clock w |}, Throw TypeError).
Proof.
  intros Hrec Hidle.
  destruct w as [[l t m e] rec c]; simpl in *; subst.
  reflexivity.
Qed.

(** C6, at the input where code and claim part.  In a browser without the
    recogniser the mount effect shows the fixed message; the first toggle
    then sends no command and leaves the listening flag off, but it throws
    a TypeError and has erased the message by then, so the session state is
    not what it was. *)
Theorem toggle_unsupported_erases_error :
  error (app world_unsupported) = msg_unsupported /\
  outcome toggleListening world_unsupported = Throw TypeError /\
  recognition (exec toggleListening world_unsupported) = None /\
  isListening (app (exec toggleListening world_unsupported)) = false /\
  error (app (exec toggleListening world_unsupported)) = [] /\
  app (exec toggleListening world_unsupported) <> app world_unsupported.
Proof.
  repeat split; try reflexivity. vm_compute. discriminate.
Qed.

(** *** The history *)

(** One callback either leaves the history alone or, at the end of a
    session, adds one message at its end, whose text is the non-empty trim
    of the live transcript and whose timestamp is the reading of the clock. *)
Lemma dispatch_messages (e : Event) (w : World) :
  messages (app (exec (dispatch e) w)) = messages (app w) \/
  (e = EndEvent /\
   trim (latestTranscript (app w)) <> [] /\
   messages (app (exec (dispatch e) w)) =
     messages (app w) ++
     [ {| text := trim (latestTranscript (app w)); timestamp := clock w |} ]).
Proof.
  destruct e as [ | | event | | code ]; unfold exec, dispatch.
  - left. unfold mountEffect. destruct (recognition w); reflexivity.
  - left. unfold toggleListening, bind, recognition_start, recognition_stop,
      send.
    destruct (isListening (app w)); simpl;
      destruct (recognition w); reflexivity.
  - left. unfold when_installed.
    destruct (recognition w) as [r|]; [|reflexivity].
    destruct (handlers r); [|reflexivity].
    rewrite onresult_run. reflexivity.
  - unfold when_installed.
    destruct (recognition w) as [r|]; [|left; reflexivity].
    destruct (handlers r); [|left; reflexivity].
    rewrite onend_run. simpl.
    destruct (truthy (trim (latestTranscript (app w)))) eqn:E;
      [right | left; reflexivity].
    apply truthy_nonempty in E. repeat split; assumption || reflexivity.
  - left. unfold when_installed.
    destruct (recognition w) as [r|]; [|reflexivity].
    destruct (handlers r); [|reflexivity].
    rewrite onerror_run. reflexivity.
Qed.

Lemma step_messages (w : World) (te : Z * Event) :
  messages (app (step w te)) = messages (app w) \/
  exists t,
    trim t <> [] /\
    messages (app (step w te)) =
      messages (app w) ++ [ {| text := trim t; timestamp := fst te |} ].
Proof.
  unfold step.
  destruct (dispatch_messages (snd te) (at_time (fst te) w))
    as [H | (_ & Hne & H)]; [left; exact H | right].
  exists (latestTranscript (app w)). split; [exact Hne | exact H].
Qed.

Lemma step_history_ok (w : World) (te : Z * Event) :
  history_ok w -> history_ok (step w te).
Proof.
  unfold history_ok. intros H.
  destruct (step_messages w te) as [-> | (t & Hne & ->)]; [exact H|].
  apply Forall_app. split; [exact H|].
  constructor; [|constructor]. simpl. rewrite trim_idempotent. exact Hne.
Qed.

Lemma run_history_ok (trace : list (Z * Event)) :
  forall w, history_ok w -> history_ok (run w trace).
Proof.
  induction trace as [|te trace IH]; intros w H; simpl; [exact H|].
  apply IH, step_history_ok, H.
Qed.

(** C4.  Every message of the history is non-empty after trimming: the
    history is empty at the start; each callback of the program keeps the
    property, so it holds after every trace of callbacks; and the end of a
    session whose live transcript trims to the empty string (blank or
    empty) adds nothing. *)
Theorem history_texts_nonempty :
  (forall supported now trace,
     history_ok (run (initialWorld supported now) trace)) /\
  (forall w te, history_ok w -> history_ok (step w te)) /\
  (forall w,
     trim (latestTranscript (app w)) = [] ->
     messages (app (exec onend w)) = messages (app w)).
Proof.
  split; [|split].
  - intros supported now trace. apply run_history_ok. constructor.
  - exact step_history_ok.
  - intros w H. apply truthy_empty in H.
    unfold exec. rewrite onend_run. simpl. rewrite H. reflexivity.
Qed.

Lemma history_texts_nonempty_witness :
  history_ok (step world_greeting (1700000000000, EndEvent)) /\
  messages (app (exec onend world_blank)) = messages (app world_blank).
Proof.
  split.
  - apply (proj1 (proj2 history_texts_nonempty)). constructor.
  - apply (proj2 (proj2 history_texts_nonempty)). reflexivity.
Defined.

Lemma run_messages_extend (trace : list (Z * Event)) :
  forall w, exists added,
    messages (app (run w trace)) = messages (app w) ++ added.
Proof.
  induction trace as [|te trace IH]; intros w; simpl.
  - exists []. rewrite app_nil_r. reflexivity.
  - destruct (IH (step w te)) as (added & ->).
    destruct (step_messages w te) as [-> | (t & _ & ->)].
    + exists added. reflexivity.
    + eexists. rewrite <- app_assoc. reflexivity.
Qed.

(** C5.  The history is append-only: one callback leaves the list as it is
    or adds one message at its end; so after any further callbacks the list
    is the former list followed by the messages added since, and a message
    once in the list stays at its position with its text and timestamp. *)
Theorem history_append_only :
  (forall w te,
     messages (app (step w te)) = messages (app w) \/
     exists m, messages (app (step w te)) = messages (app w) ++ [m]) /\
  (forall w trace,
     exists added,
       messages (app (run w trace)) = messages (app w) ++ added) /\
  (forall w trace i m,
     nth_error (messages (app w)) i = Some m ->
     nth_error (messages (app (run w trace))) i = Some m).
Proof.
  split; [|split].
  - intros w te.
    destruct (step_messages w te) as [H | (t & _ & H)]; [left; exact H|].
    right. eexists. exact H.
  - intros w trace. apply run_messages_extend.
  - intros w trace i m H.
    destruct (run_messages_extend trace w) as (added & ->).
    rewrite nth_error_app1; [exact H|].
    apply nth_error_Some. congruence.
Qed.

Lemma history_append_only_witness :
  nth_error
    (messages (app (run (exec onend world_greeting)
                        [ (1700000000001, Clicked);
                          (1700000000002, ResultEvent sample_event);
                          (1700000000003, EndEvent) ]))) 0 =
  Some {| text := js "안녕하세요"; timestamp := 1700000000000 |}.
Proof.
  apply (proj2 (proj2 history_append_only)). reflexivity.
Defined.

(** Two sessions in a row: the two messages are in the history in the order
    of the sessions, each with its own text and time. *)
Example two_sessions_in_order :
  messages (app (run world_ready
    [ (10, Clicked); (11, ResultEvent sample_event); (12, EndEvent);
      (20, Clicked); (21, ResultEvent sample_event); (22, Clicked);
      (23, EndEvent) ])) =
  [ {| text := js "one two three"; timestamp := 12 |};
    {| text := js "one two three"; timestamp := 23 |} ].
Proof. vm_compute. reflexivity. Qed.

End SessionFacts.

(* ================================================================== *)
(** ** Further properties of the auto-fit scan *)
(* ================================================================== *)

Module FitTextProperties.

Import FitText FitTextFacts.
Local Open Scope Z_scope.

(** The document the callback hands back has the returned size on the
    element's style, whatever the branch taken. *)
Lemma useFitText_result_shape (fontSize : Z) (d : Dom) :
  parentElement d = true ->
  exists r,
    useFitText_resizeObserver fontSize d = Some (r, set_style_fontSize r d) /\
    10 <= r <= 150 /\
    (forall s, r < s <= 150 -> ~ fits (layout d) s) /\
    (fits (layout d) r \/ r = 10).
Proof.
  intros Hp. unfold useFitText_resizeObserver. rewrite Hp.
  cbn [negb]. cbv zeta.
  destruct (fit_loop_scan fit_fuel 150 (set_style_fontSize 150 d))
    as (r & Hr & Hrange & Habove & Hstop);
    [reflexivity | lia | unfold fit_fuel; simpl; lia |].
  exists r. rewrite Hr. simpl in *. repeat split; try assumption; lia.
Qed.

(** X1.  For every layout, monotone or not, the callback returns a size of
    10..150 such that every larger size of the range overflows and the size
    itself fits unless it is the floor 10; the element's style is left at
    that size. *)
Theorem useFitText_any_layout (fontSize : Z) (d : Dom) :
  parentElement d = true ->
  exists r,
    useFitText_resizeObserver fontSize d = Some (r, set_style_fontSize r d) /\
    10 <= r <= 150 /\
    (forall s, r < s <= 150 -> ~ fits (layout d) s) /\
    (fits (layout d) r \/ r = 10).
Proof.
  intros Hp. unfold useFitText_resizeObserver. rewrite Hp.
  cbn [negb]. cbv zeta.
  destruct (fit_loop_scan fit_fuel 150 (set_style_fontSize 150 d))
    as (r & Hr & Hrange & Habove & Hstop);
    [reflexivity | lia | unfold fit_fuel; simpl; lia |].
  exists r. rewrite Hr. simpl in *. repeat split; try assumption; lia.
Qed.

Lemma useFitText_any_layout_witness :
  exists r,
    useFitText_resizeObserver 100 (dom_of tiny_layout) =
      Some (r, set_style_fontSize r (dom_of tiny_layout)) /\
    10 <= r <= 150 /\
    (forall s, r < s <= 150 -> ~ fits (layout (dom_of tiny_layout)) s) /\
    (fits (layout (dom_of tiny_layout)) r \/ r = 10).
Proof.
  apply (useFitText_any_layout 100 (dom_of tiny_layout)). reflexivity.
Defined.

Lemma useFitText_same_layout_same_size
    (fontSize1 fontSize2 : Z) (d1 d2 : Dom) :
  layout d1 = layout d2 ->
  parentElement d1 = true ->
  parentElement d2 = true ->
  option_map fst (useFitText_resizeObserver fontSize1 d1) =
  option_map fst (useFitText_resizeObserver fontSize2 d2).
Proof.
  intros HL H1 H2. unfold useFitText_resizeObserver.
  rewrite H1, H2. cbn [negb]. cbv zeta.
  replace (set_style_fontSize 150 d2) with (set_style_fontSize 150 d1).
  - destruct (fit_loop fit_fuel 150 (set_style_fontSize 150 d1))
      as [[? ?]|]; reflexivity.
  - unfold set_style_fontSize. rewrite HL, H1, H2. reflexivity.
Qed.

(** X2.  The size the callback computes depends on the layout only: the
    font size held in the hook's state and the size found on the element's
    style play no part. *)
Theorem useFitText_forgets_previous_size
    (fontSize1 fontSize2 : Z) (d1 d2 : Dom) :
  layout d1 = layout d2 ->
  parentElement d1 = true ->
  parentElement d2 = true ->
  option_map fst (useFitText_resizeObserver fontSize1 d1) =
  option_map fst (useFitText_resizeObserver fontSize2 d2).
Proof.
  intros HL H1 H2. unfold useFitText_resizeObserver.
  rewrite H1, H2. cbn [negb]. cbv zeta.
  assert (E : set_style_fontSize 150 d2 = set_style_fontSize 150 d1)
    by (unfold set_style_fontSize; rewrite HL, H1, H2; reflexivity).
  rewrite E.
  destruct (fit_loop fit_fuel 150 (set_style_fontSize 150 d1))
    as [[? ?]|]; reflexivity.
Qed.

Lemma useFitText_forgets_previous_size_witness :
  option_map fst (useFitText_resizeObserver 100 sample_dom) =
  option_map fst
    (useFitText_resizeObserver 12 (set_style_fontSize 12 sample_dom)).
Proof.
  apply (useFitText_forgets_previous_size 100 12 sample_dom
           (set_style_fontSize 12 sample_dom)); reflexivity.
Defined.

(** X3.  The callback is stable: run again on the state and document it has
    just produced, with the layout unchanged, it produces them again. *)
Theorem useFitText_idempotent (fontSize r : Z) (d d' : Dom) :
  useFitText_resizeObserver fontSize d = Some (r, d') ->
  useFitText_resizeObserver r d' = Some (r, d').
Proof.
  intros H. destruct (parentElement d) eqn:Hp.
  - destruct (useFitText_result_shape fontSize d Hp) as (r0 & Hr0 & _).
    rewrite Hr0 in H. injection H as <- <-.
    destruct (useFitText_result_shape r0 (set_style_fontSize r0 d) Hp)
      as (r1 & Hr1 & _).
    assert (E : option_map fst
                  (useFitText_resizeObserver r0 (set_style_fontSize r0 d)) =
                option_map fst (useFitText_resizeObserver fontSize d))
      by (apply useFitText_same_layout_same_size; auto).
    rewrite Hr0, Hr1 in E. simpl in E. injection E as ->.
    exact Hr1.
  - unfold useFitText_resizeObserver in *. rewrite Hp in *. simpl in *.
    injection H as <- <-. rewrite Hp. reflexivity.
Qed.

Lemma useFitText_idempotent_witness :
  useFitText_resizeObserver 40 (set_style_fontSize 40 sample_dom) =
  Some (40, set_style_fontSize 40 sample_dom).
Proof.
  apply (useFitText_idempotent 100 40 sample_dom).
  vm_compute. reflexivity.
Defined.

(** X4.  A container that holds every size the other holds gets a font at
    least as large: enlarging the container never shrinks the text. *)
Theorem useFitText_monotone_in_container
    (fontSize1 fontSize2 r1 r2 : Z) (d1 d2 d1' d2' : Dom) :
  parentElement d1 = true ->
  parentElement d2 = true ->
  (forall s, 10 <= s <= 150 -> fits (layout d1) s -> fits (layout d2) s) ->
  useFitText_resizeObserver fontSize1 d1 = Some (r1, d1') ->
  useFitText_resizeObserver fontSize2 d2 = Some (r2, d2') ->
  r1 <= r2.
Proof.
  intros H1 H2 Hsub E1 E2.
  destruct (useFitText_result_shape fontSize1 d1 H1)
    as (a & Ha & Harange & _ & Hafit).
  destruct (useFitText_result_shape fontSize2 d2 H2)
    as (b & Hb & Hbrange & Hbabove & _).
  rewrite Ha in E1. rewrite Hb in E2.
  injection E1 as <- _. injection E2 as <- _.
  destruct Hafit as [Hfit | ->]; [|lia].
  destruct (Z_le_gt_dec a b); [assumption|].
  exfalso. apply (Hbabove a); [lia|]. apply Hsub; [lia | exact Hfit].
Qed.

Lemma useFitText_monotone_in_container_witness : 40 <= 150.
Proof.
  apply (useFitText_monotone_in_container 100 100 40 150
           sample_dom (dom_of roomy_layout)
           (set_style_fontSize 40 sample_dom)
           (set_style_fontSize 150 (dom_of roomy_layout)));
    try reflexivity.
  unfold fits, sample_dom, dom_of, sample_layout, roomy_layout.
  cbn [layout scrollWidth scrollHeight clientWidth clientHeight].
  intros s Hs _. split; [lia|].
  assert (s / 4 <= s) by (apply Z.div_le_upper_bound; lia). lia.
Defined.

(** X5.  The earlier revision, which measures the parent once before the
    scan, computes what the current one computes whenever the parent's
    client size does not vary with the font size of the text. *)
Theorem useFitText_revisions_agree (fontSize : Z) (d : Dom) (W H : Z) :
  (forall s, clientWidth (layout d) s = W) ->
  (forall s, clientHeight (layout d) s = H) ->
  useFitText_resizeObserver_000 fontSize d =
  useFitText_resizeObserver fontSize d.
Proof.
  intros HW HH. unfold useFitText_resizeObserver_000, useFitText_resizeObserver.
  destruct (negb (parentElement d)); [reflexivity|].
  cbv zeta. unfold parent_clientWidth, parent_clientHeight.
  rewrite (HW (style_fontSize d)), (HH (style_fontSize d)).
  rewrite (fit_loop_000_same fit_fuel 150 (set_style_fontSize 150 d) W H)
    by assumption.
  destruct (fit_loop fit_fuel 150 (set_style_fontSize 150 d))
    as [[? ?]|]; reflexivity.
Qed.

Lemma useFitText_revisions_agree_witness :
  useFitText_resizeObserver_000 100 sample_dom =
  useFitText_resizeObserver 100 sample_dom.
Proof.
  apply (useFitText_revisions_agree 100 sample_dom 400 100);
    intros; reflexivity.
Defined.

End FitTextProperties.

(* ================================================================== *)
(** ** Further properties of the session controller *)
(* ================================================================== *)

Module SessionProperties.

Import Session Protocol JsStringFacts SessionFacts.
Local Open Scope Z_scope.
Local Open Scope js_scope.

(** *** Single steps, once the handlers are installed *)

Lemma when_installed_run (h : M unit) (w : World) :
  installed w -> when_installed h w = h w.
Proof.
  intros (r & Hr & Hh). unfold when_installed. rewrite Hr, Hh. reflexivity.
Qed.

Lemma installed_at_time (t : Z) (w : World) :
  installed w -> installed (at_time t w).
Proof. intros (r & Hr & Hh). exists r. split; assumption. Qed.

Lemma step_result (w : World) (t : Z) (event : SpeechRecognitionEvent) :
  installed w ->
  step w (t, ResultEvent event) =
  exec (setLatestTranscript (finalPart event ++ interimPart event))
       (at_time t w).
Proof.
  intros H. unfold step, exec, dispatch. cbn [fst snd].
  rewrite when_installed_run by (apply installed_at_time, H).
  rewrite onresult_run. reflexivity.
Qed.

Lemma step_end (w : World) (t : Z) :
  installed w -> step w (t, EndEvent) = exec onend (at_time t w).
Proof.
  intros H. unfold step, exec, dispatch. cbn [fst snd].
  rewrite when_installed_run by (apply installed_at_time, H). reflexivity.
Qed.

Lemma step_error (w : World) (t : Z) (code : jsstring) :
  installed w -> step w (t, ErrorEvent code) = exec (onerror code) (at_time t w).
Proof.
  intros H. unfold step, exec, dispatch. cbn [fst snd].
  rewrite when_installed_run by (apply installed_at_time, H). reflexivity.
Qed.

Lemma exec_onend (w : World) :
  exec onend w =
  {| app :=
       {| isListening := false;
          latestTranscript := [];
          messages :=
            if truthy (trim (latestTranscript (app w))) then
              messages (app w) ++
              [ {| text := trim (latestTranscript (app w));
                   timestamp := clock w |} ]
            else messages (app w);
          error := error (app w) |};
     recognition := recognition w;
     clock := clock w |}.
Proof. unfold exec. rewrite onend_run. reflexivity. Qed.

Lemma exec_onerror (code : jsstring) (w : World) :
  exec (onerror code) w =
  {| app :=
       {| isListening := false;
          latestTranscript := latestTranscript (app w);
          messages := messages (app w);
          error :=
            if jsstring_eqb code code_no_speech then msg_no_speech
            else msg_error_prefix ++ code |};
     recognition := recognition w;
     clock := clock w |}.
Proof. unfold exec. rewrite onerror_run. reflexivity. Qed.

(** The toggle in full, when the recogniser exists. *)
Lemma exec_toggle (w : World) (r : SpeechRecognition) :
  recognition w = Some r ->
  exec toggleListening w =
  {| app :=
       {| isListening := negb (isListening (app w));
          latestTranscript :=
            if isListening (app w) then latestTranscript (app w) else [];
          messages := messages (app w);
          error := if isListening (app w) then error (app w) else [] |};
     recognition := Some
       {| continuous := continuous r; lang := lang r;
          interimResults := interimResults r; handlers := handlers r;
          commands :=
            commands r ++ [if isListening (app w) then Stop else Start] |};
     clock := clock w |}.
Proof.
  intros Hr. destruct w as [[l t m e] rec c]. simpl in *. subst rec.
  destruct l; reflexivity.
Qed.

Lemma installed_step (w : World) (te : Z * Event) :
  installed w -> installed (step w te).
Proof.
  intros H. destruct te as [t e].
  destruct e as [ | | event | | code ].
  - destruct H as (r & Hr & Hh). unfold step, exec, dispatch, mountEffect.
    cbn [fst snd at_time recognition]. rewrite Hr.
    eexists; split; reflexivity.
  - destruct H as (r & Hr & Hh). unfold step, dispatch. cbn [fst snd].
    rewrite (exec_toggle _ r) by exact Hr.
    eexists; split; [reflexivity | exact Hh].
  - rewrite step_result by exact H. destruct H as (r & Hr & Hh).
    exists r; split; assumption.
  - rewrite step_end by exact H. rewrite exec_onend.
    destruct H as (r & Hr & Hh). exists r; split; assumption.
  - rewrite step_error by exact H. rewrite exec_onerror.
    destruct H as (r & Hr & Hh). exists r; split; assumption.
Qed.

(** *** The toggle while listening *)

(** X6.  A toggle while listening, with the recogniser present, returns
    normally, sends one stop command and clears the listening flag at once;
    live transcript, history and error text are as before: nothing is
    flushed by the click itself. *)
Theorem toggle_from_listening (w : World) (r : SpeechRecognition) :
  isListening (app w) = true ->
  recognition w = Some r ->
  outcome toggleListening w = Normal tt /\
  isListening (app (exec toggleListening w)) = false /\
  latestTranscript (app (exec toggleListening w)) = latestTranscript (app w) /\
  messages (app (exec toggleListening w)) = messages (app w) /\
  error (app (exec toggleListening w)) = error (app w) /\
  (exists r', recognition (exec toggleListening w) = Some r' /\
              commands r' = commands r ++ [Stop]).
Proof.
  intros Hl Hr. split.
  - destruct (toggle_from_listening_stops w r Hl Hr) as (H & _). exact H.
  - rewrite (exec_toggle w r Hr), Hl. simpl.
    repeat split. eexists; split; reflexivity.
Qed.

Lemma toggle_from_listening_witness :
  outcome toggleListening world_talking = Normal tt /\
  isListening (app (exec toggleListening world_talking)) = false /\
  latestTranscript (app (exec toggleListening world_talking)) =
    latestTranscript (app world_talking) /\
  messages (app (exec toggleListening world_talking)) =
    messages (app world_talking) /\
  error (app (exec toggleListening world_talking)) =
    error (app world_talking) /\
  (exists r', recognition (exec toggleListening world_talking) = Some r' /\
              commands r' = [Start] ++ [Stop]).
Proof.
  apply (toggle_from_listening world_talking
           {| continuous := true; lang := lang_ko_KR; interimResults := true;
              handlers := true; commands := [Start] |}); reflexivity.
Defined.

(** *** Sequences of callbacks *)

(** X7.  Stopping a session: the click that stops it followed by the end
    callback appends the trimmed transcript as one message (stamped with
    whatever [Date.now()] returns when React runs the updater), empties the
    transcript and leaves the listening flag off. *)
Theorem stop_then_end_flushes (w : World) (t1 t2 : Z) :
  installed w ->
  isListening (app w) = true ->
  trim (latestTranscript (app w)) <> [] ->
  (exists stamp,
     messages (app (run w [ (t1, Clicked); (t2, EndEvent) ])) =
     messages (app w) ++
     [ {| text := trim (latestTranscript (app w)); timestamp := stamp |} ]) /\
  latestTranscript (app (run w [ (t1, Clicked); (t2, EndEvent) ])) = [] /\
  isListening (app (run w [ (t1, Clicked); (t2, EndEvent) ])) = false.
Proof.
  intros Hi Hl Hne. apply truthy_nonempty in Hne.
  cbn [run fold_left].
  rewrite step_end by (apply installed_step, Hi).
  rewrite exec_onend.
  destruct Hi as (r & Hr & _).
  unfold step, dispatch. cbn [fst snd].
  rewrite (exec_toggle (at_time t1 w) r) by exact Hr.
  cbn [at_time app latestTranscript messages clock isListening].
  rewrite Hl, Hne. repeat split. eexists. reflexivity.
Qed.

Lemma stop_then_end_flushes_witness :
  (exists stamp,
     messages (app (run world_talking [ (5, Clicked); (9, EndEvent) ])) =
     messages (app world_talking) ++
     [ {| text := trim (latestTranscript (app world_talking));
          timestamp := stamp |} ]) /\
  latestTranscript
    (app (run world_talking [ (5, Clicked); (9, EndEvent) ])) = [] /\
  isListening (app (run world_talking [ (5, Clicked); (9, EndEvent) ])) =
    false.
Proof.
  apply (stop_then_end_flushes world_talking 5 9).
  - eexists; split; reflexivity.
  - reflexivity.
  - vm_compute. discriminate.
Defined.

(** X8.  A result that arrives after the click that stops the session and
    before the end callback still counts: it replaces the transcript, and
    the end callback saves its trimmed text as one message. *)
Theorem late_result_is_saved
    (w : World) (t1 t2 t3 : Z) (event : SpeechRecognitionEvent) :
  installed w ->
  isListening (app w) = true ->
  trim (finalPart event ++ interimPart event) <> [] ->
  exists stamp,
    messages (app (run w [ (t1, Clicked); (t2, ResultEvent event);
                           (t3, EndEvent) ])) =
    messages (app w) ++
    [ {| text := trim (finalPart event ++ interimPart event);
         timestamp := stamp |} ].
Proof.
  intros Hi Hl Hne. apply truthy_nonempty in Hne.
  cbn [run fold_left].
  rewrite step_end by (do 2 apply installed_step; exact Hi).
  rewrite exec_onend.
  rewrite step_result by (apply installed_step, Hi).
  destruct Hi as (r & Hr & _).
  unfold step at 1 2 3, dispatch. cbn [fst snd].
  rewrite (exec_toggle (at_time t1 w) r) by exact Hr.
  unfold exec, setLatestTranscript, with_app.
  cbn [fst at_time app latestTranscript messages clock isListening].
  rewrite Hne. eexists. reflexivity.
Qed.

Lemma late_result_is_saved_witness :
  exists stamp,
    messages (app (run world_talking
                     [ (5, Clicked); (6, ResultEvent sample_event);
                       (9, EndEvent) ])) =
    messages (app world_talking) ++
    [ {| text := trim (finalPart sample_event ++ interimPart sample_event);
         timestamp := stamp |} ].
Proof.
  apply (late_result_is_saved world_talking 5 6 9 sample_event).
  - eexists; split; reflexivity.
  - reflexivity.
  - vm_compute. discriminate.
Defined.

(** X9.  An error does not lose the utterance when the recogniser goes on
    to report the end of the session: the error callback followed by the
    end callback appends the trimmed transcript as one message, and the
    error text set by the error callback is still there afterwards. *)
Theorem error_then_end_flushes (w : World) (t1 t2 : Z) (code : jsstring) :
  installed w ->
  trim (latestTranscript (app w)) <> [] ->
  (exists stamp,
     messages (app (run w [ (t1, ErrorEvent code); (t2, EndEvent) ])) =
     messages (app w) ++
     [ {| text := trim (latestTranscript (app w)); timestamp := stamp |} ]) /\
  error (app (run w [ (t1, ErrorEvent code); (t2, EndEvent) ])) =
    error (app (exec (onerror code) w)) /\
  isListening (app (run w [ (t1, ErrorEvent code); (t2, EndEvent) ])) = false.
Proof.
  intros Hi Hne. apply truthy_nonempty in Hne.
  cbn [run fold_left].
  rewrite step_end by (apply installed_step, Hi).
  rewrite exec_onend.
  rewrite step_error by exact Hi.
  rewrite !exec_onerror.
  cbn [at_time app latestTranscript messages clock isListening error].
  rewrite Hne. repeat split. eexists. reflexivity.
Qed.

Lemma error_then_end_flushes_witness :
  (exists stamp,
     messages (app (run world_talking
                      [ (5, ErrorEvent (js "network")); (9, EndEvent) ])) =
     messages (app world_talking) ++
     [ {| text := trim (latestTranscript (app world_talking));
          timestamp := stamp |} ]) /\
  error (app (run world_talking
                [ (5, ErrorEvent (js "network")); (9, EndEvent) ])) =
    error (app (exec (onerror (js "network")) world_talking)) /\
  isListening (app (run world_talking
                      [ (5, ErrorEvent (js "network")); (9, EndEvent) ])) =
    false.
Proof.
  apply (error_then_end_flushes world_talking 5 9 (js "network")).
  - eexists; split; reflexivity.
  - vm_compute. discriminate.
Defined.

(** X10.  A second end callback in a row changes nothing: the first one has
    emptied the transcript, so the second finds nothing to save. *)
Theorem onend_twice (w : World) :
  exec onend (exec onend w) = exec onend w.
Proof.
  rewrite (exec_onend (exec onend w)), (exec_onend w). reflexivity.
Qed.

(** *** What holds after every trace *)

Lemma run_app (w : World) (trace1 trace2 : list (Z * Event)) :
  run w (trace1 ++ trace2) = run (run w trace1) trace2.
Proof. unfold run. apply fold_left_app. Qed.

(** In a browser without the recogniser, a step changes the error text
    only. *)
Lemma step_unsupported (w : World) (te : Z * Event) :
  recognition w = None ->
  isListening (app w) = false ->
  latestTranscript (app w) = [] ->
  recognition (step w te) = None /\
  isListening (app (step w te)) = false /\
  latestTranscript (app (step w te)) = [] /\
  messages (app (step w te)) = messages (app w) /\
  (error (app (step w te)) = error (app w) \/
   error (app (step w te)) = [] \/
   error (app (step w te)) = msg_unsupported).
Proof.
  intros Hr Hl Ht. destruct te as [t e].
  destruct w as [[l tr m er] rec c]. simpl in *. subst.
  destruct e; unfold step; simpl; repeat split; auto.
Qed.

(** X11.  In a browser without the recogniser nothing ever happens: after
    every trace of callbacks and clicks the recogniser is still null, the
    program is not listening, transcript and history are empty, and the
    error text is either the fixed message of the mount effect or empty. *)
Theorem unsupported_forever (now : Z) (trace : list (Z * Event)) :
  recognition (run (initialWorld false now) trace) = None /\
  isListening (app (run (initialWorld false now) trace)) = false /\
  latestTranscript (app (run (initialWorld false now) trace)) = [] /\
  messages (app (run (initialWorld false now) trace)) = [] /\
  (error (app (run (initialWorld false now) trace)) = [] \/
   error (app (run (initialWorld false now) trace)) = msg_unsupported).
Proof.
  induction trace as [|te trace IH] using rev_ind.
  - simpl. repeat split; auto.
  - rewrite run_app. cbn [run fold_left].
    destruct IH as (Hr & Hl & Ht & Hm & He).
    destruct (step_unsupported _ te Hr Hl Ht) as (Hr' & Hl' & Ht' & Hm' & He').
    repeat split; try assumption; [congruence|].
    destruct He' as [E | [E | E]]; rewrite E; auto.
Qed.

(** *** The command log *)

Lemma read_log_app (log : list Command) (c : Command) :
  forall b,
    read_log b (log ++ [c]) =
    match read_log b log with
    | Some b' => read_log b' [c]
    | None => None
    end.
Proof.
  induction log as [|x log IH]; intros b; simpl; [reflexivity|].
  destruct x; [apply IH|]. destruct b; [apply IH | reflexivity].
Qed.

Lemma read_log_sound (log : list Command) :
  forall b b' pre post,
    read_log b log = Some b' ->
    log = pre ++ Stop :: post ->
    (pre = [] /\ b = true) \/ exists pre', pre = pre' ++ [Start].
Proof.
  induction log as [|x log IH]; intros b b' pre post Hread Hsplit.
  - destruct pre; discriminate.
  - destruct pre as [|p pre]; simpl in Hsplit;
      injection Hsplit as -> Hlog.
    + left. simpl in Hread. destruct b; [auto | discriminate].
    + right. simpl in Hread. destruct p.
      * destruct (IH _ _ _ _ Hread Hlog) as [[-> _] | (pre' & ->)].
        -- exists []. reflexivity.
        -- exists (Start :: pre'). reflexivity.
      * destruct b; [|discriminate].
        destruct (IH _ _ _ _ Hread Hlog) as [[_ ?] | (pre' & ->)];
          [discriminate|].
        exists (Stop :: pre'). reflexivity.
Qed.

Lemma read_log_last (log : list Command) :
  forall b,
    read_log b log = Some true ->
    (log = [] /\ b = true) \/ exists pre, log = pre ++ [Start].
Proof.
  induction log as [|x log IH]; intros b H; simpl in H.
  - left. split; congruence.
  - right. destruct x.
    + destruct (IH _ H) as [[-> _] | (pre & ->)].
      * exists []. reflexivity.
      * exists (Start :: pre). reflexivity.
    + destruct b; [|discriminate].
      destruct (IH _ H) as [[_ ?] | (pre & ->)]; [discriminate|].
      exists (Stop :: pre). reflexivity.
Qed.

Lemma log_ok_step (w : World) (te : Z * Event) :
  log_ok w -> log_ok (step w te).
Proof.
  intros (r & b & Hr & Hc & Hi & Hlang & Hread & Hb).
  destruct te as [t e].
  destruct e as [ | | event | | code ].
  2: { unfold step, dispatch. cbn [fst snd].
       rewrite (exec_toggle (at_time t w) r Hr).
       cbn [at_time app isListening].
       destruct (isListening (app w)).
       - rewrite (Hb eq_refl) in Hread.
         eexists _, false. split; [reflexivity|].
         cbn [app isListening continuous interimResults lang commands negb].
         rewrite read_log_app, Hread.
         repeat split; auto; discriminate.
       - eexists _, true. split; [reflexivity|].
         cbn [app isListening continuous interimResults lang commands negb].
         rewrite read_log_app, Hread.
         repeat split; auto. }
  all: destruct w as [[l tr m er] rec c]; simpl in *; subst rec;
    destruct r as [co la ir h cmds]; simpl in *;
    unfold step, exec; cbn [fst snd dispatch];
    unfold when_installed, mountEffect; simpl.
  - eexists _, b. simpl. auto 10.
  - destruct h.
    + rewrite onresult_run. simpl. eexists _, b. simpl. auto 10.
    + simpl. eexists _, b. simpl. auto 10.
  - destruct h.
    + rewrite onend_run. simpl. eexists _, b. simpl.
      repeat split; auto; discriminate.
    + simpl. eexists _, b. simpl. auto 10.
  - destruct h.
    + rewrite onerror_run. simpl. eexists _, b. simpl.
      repeat split; auto; discriminate.
    + simpl. eexists _, b. simpl. auto 10.
Qed.

Lemma log_ok_run (trace : list (Z * Event)) :
  forall w, log_ok w -> log_ok (run w trace).
Proof.
  induction trace as [|te trace IH]; intros w H; simpl; [exact H|].
  apply IH, log_ok_step, H.
Qed.

Lemma log_ok_initial (now : Z) : log_ok (initialWorld true now).
Proof.
  eexists _, false. simpl. repeat split; auto; discriminate.
Qed.

(** X12.  In a browser with the recogniser, after every trace: the program
    only ever sends a stop right after a start (the log never opens with a
    stop and never has two stops in a row), and whenever the listening flag
    is on, the last command sent is a start. *)
Theorem stop_only_after_start (now : Z) (trace : list (Z * Event)) :
  exists r,
    recognition (run (initialWorld true now) trace) = Some r /\
    stops_follow_starts (commands r) /\
    (isListening (app (run (initialWorld true now) trace)) = true ->
     exists pre, commands r = pre ++ [Start]).
Proof.
  destruct (log_ok_run trace _ (log_ok_initial now))
    as (r & b & Hr & _ & _ & _ & Hread & Hb).
  exists r. split; [exact Hr|]. split.
  - intros pre post Hsplit.
    destruct (read_log_sound _ _ _ _ _ Hread Hsplit) as [[_ ?] | H];
      [discriminate | exact H].
  - intros Hl. rewrite (Hb Hl) in Hread.
    destruct (read_log_last _ _ Hread) as [[_ ?] | H];
      [discriminate | exact H].
Qed.

(** X13.  No callback reconfigures or drops the recogniser: after every
    trace it is the object created at module load, still in continuous
    mode, with interim results, for the locale ko-KR. *)
Theorem recogniser_configuration_fixed (now : Z) (trace : list (Z * Event)) :
  exists r,
    recognition (run (initialWorld true now) trace) = Some r /\
    continuous r = true /\ interimResults r = true /\ lang r = lang_ko_KR.
Proof.
  destruct (log_ok_run trace _ (log_ok_initial now))
    as (r & b & Hr & Hc & Hi & Hlang & _).
  exists r. auto.
Qed.

(** X14.  Only a click turns listening on: after any other callback the
    listening flag is on only if it was on before. *)
Theorem only_click_starts_listening (w : World) (t : Z) (e : Event) :
  e <> Clicked ->
  isListening (app (step w (t, e))) = true ->
  isListening (app w) = true.
Proof.
  intros Hne H. destruct w as [[l tr m er] rec c].
  destruct e as [ | | event | | code ]; [ | congruence | | | ];
    unfold step, exec, dispatch, when_installed, mountEffect in H;
    cbn [fst snd at_time recognition app clock] in H;
    destruct rec as [r|]; try exact H;
    try (destruct (handlers r); [|exact H]).
  - rewrite onresult_run in H. exact H.
  - rewrite onend_run in H. discriminate.
  - rewrite onerror_run in H. discriminate.
Qed.

Lemma only_click_starts_listening_witness :
  isListening (app world_talking) = true.
Proof.
  apply (only_click_starts_listening world_talking 3
           (ResultEvent sample_event)).
  - discriminate.
  - vm_compute. reflexivity.
Defined.

(** *** The history, further *)

Lemma step_messages_end (w : World) (te : Z * Event) :
  messages (app (step w te)) = messages (app w) \/
  (is_end te = true /\
   exists m, messages (app (step w te)) = messages (app w) ++ [m]).
Proof.
  unfold step, is_end.
  destruct (dispatch_messages (snd te) (at_time (fst te) w))
    as [H | (He & _ & H)]; [left; exact H | right].
  split; [rewrite He; reflexivity|]. eexists. exact H.
Qed.

(** X15.  The history grows by at most one message per end callback: after
    a trace it holds at most as many new messages as the trace has end
    callbacks. *)
Theorem history_bounded_by_ends (trace : list (Z * Event)) (w : World) :
  (length (messages (app (run w trace))) <=
   length (messages (app w)) + count_ends trace)%nat.
Proof.
  revert w. induction trace as [|te trace IH]; intros w; simpl; [lia|].
  specialize (IH (step w te)). unfold count_ends in *. simpl.
  destruct (step_messages_end w te) as [E | (He & m & E)];
    rewrite E in IH.
  - destruct (is_end te); simpl; lia.
  - rewrite He. rewrite length_app in IH. simpl in *. lia.
Qed.

Lemma trim_head (s : jsstring) (c : char16) (r : jsstring) :
  trim s = c :: r -> isTrimmable c = false.
Proof.
  unfold trim.
  destruct (trimStart_head s) as [-> | (c0 & r0 & -> & H)];
    [discriminate|].
  rewrite (trimEnd_cons_keep _ _ H). congruence.
Qed.

Lemma trim_last (s : jsstring) (c : char16) (r : jsstring) :
  rev (trim s) = c :: r -> isTrimmable c = false.
Proof.
  unfold trim, trimEnd. rewrite rev_involutive. intros E.
  destruct (trimStart_head (rev (trimStart s))) as [E0 | (c0 & r0 & E0 & H)];
    rewrite E0 in E; congruence.
Qed.

Lemma trim_trimmed (s : jsstring) : trim s <> [] -> trimmed (trim s).
Proof.
  intros H. split; [exact H|]. split; [apply trim_idempotent|]. split.
  - intros c r. apply trim_head.
  - intros c r. apply trim_last.
Qed.

Lemma step_trimmed (w : World) (te : Z * Event) :
  Forall (fun m => trimmed (text m)) (messages (app w)) ->
  Forall (fun m => trimmed (text m)) (messages (app (step w te))).
Proof.
  intros H.
  destruct (step_messages w te) as [-> | (t & Hne & ->)]; [exact H|].
  apply Forall_app. split; [exact H|].
  constructor; [|constructor]. apply trim_trimmed, Hne.
Qed.

(** X16.  Every text of the history is stored trimmed: it is not empty,
    trimming it again gives it back, and neither its first nor its last
    code unit is white space or a line terminator. *)
Theorem history_texts_trimmed
    (supported : bool) (now : Z) (trace : list (Z * Event)) :
  Forall (fun m => trimmed (text m))
         (messages (app (run (initialWorld supported now) trace))).
Proof.
  induction trace as [|te trace IH] using rev_ind.
  - constructor.
  - rewrite run_app. cbn [run fold_left]. apply step_trimmed, IH.
Qed.

(** *** The result callback, further *)

Lemma slots_of_app (pre slots : list SpeechRecognitionResult) :
  slots_of {| resultIndex := length pre; results := pre ++ slots |} = slots.
Proof.
  unfold slots_of. simpl.
  rewrite skipn_app, skipn_all, Nat.sub_diag. reflexivity.
Qed.

Lemma onresult_after_prefix
    (pre slots : list SpeechRecognitionResult) (w : World) :
  latestTranscript
    (app (exec (onresult {| resultIndex := length pre;
                            results := pre ++ slots |}) w)) =
  fragments_of true slots ++ fragments_of false slots.
Proof.
  unfold exec. rewrite onresult_run. unfold finalPart, interimPart.
  rewrite slots_of_app. reflexivity.
Qed.

(** X18.  The result callback shows nothing of the slots before the start
    index: whatever they hold, final or not, the transcript is made of the
    slots from the start index on. *)
Theorem onresult_ignores_earlier_slots
    (pre slots : list SpeechRecognitionResult) (w : World) :
  latestTranscript
    (app (exec (onresult {| resultIndex := length pre;
                            results := pre ++ slots |}) w)) =
  fragments_of true slots ++ fragments_of false slots.
Proof.
  unfold exec. rewrite onresult_run.
  unfold finalPart, interimPart, slots_of. cbn [resultIndex results].
  rewrite skipn_app, skipn_all, Nat.sub_diag. reflexivity.
Qed.

(** X19.  An event whose start index is at or past the end of its results
    empties the transcript, and the viewer shows its prompt again. *)
Theorem onresult_empty_event (event : SpeechRecognitionEvent) (w : World) :
  (length (results event) <= resultIndex event)%nat ->
  outcome (onresult event) w = Normal tt /\
  latestTranscript (app (exec (onresult event) w)) = [] /\
  View.viewer (View.render (app (exec (onresult event) w))) =
    View.placeholder.
Proof.
  intros H. unfold outcome, exec. rewrite onresult_run.
  unfold finalPart, interimPart, slots_of.
  rewrite skipn_all2 by exact H. repeat split; reflexivity.
Qed.

Lemma onresult_empty_event_witness :
  outcome (onresult {| resultIndex := 2; results := [slot true (js "a")] |})
          world_talking = Normal tt /\
  latestTranscript
    (app (exec (onresult {| resultIndex := 2;
                            results := [slot true (js "a")] |})
               world_talking)) = [] /\
  View.viewer
    (View.render
       (app (exec (onresult {| resultIndex := 2;
                               results := [slot true (js "a")] |})
                  world_talking))) = View.placeholder.
Proof.
  apply (onresult_empty_event
           {| resultIndex := 2; results := [slot true (js "a")] |}
           world_talking).
  simpl. lia.
Defined.

Lemma partition_by_tag (slots : list SpeechRecognitionResult) :
  Permutation
    (filter (fun r => Bool.eqb (isFinal r) true) slots ++
     filter (fun r => Bool.eqb (isFinal r) false) slots)
    slots.
Proof.
  induction slots as [|r slots IH]; simpl; [constructor|].
  destruct (isFinal r); simpl.
  - constructor. exact IH.
  - apply Permutation_sym, Permutation_cons_app, Permutation_sym, IH.
Qed.

(** X20.  The result callback neither drops nor repeats a fragment: the
    transcript is the concatenation of the fragments of the slots from the
    start index on, each taken once, in some order. *)
Theorem onresult_keeps_every_fragment
    (event : SpeechRecognitionEvent) (w : World) :
  exists order,
    Permutation order (fragment_list (slots_of event)) /\
    latestTranscript (app (exec (onresult event) w)) = concat order.
Proof.
  exists (fragment_list
            (filter (fun r => Bool.eqb (isFinal r) true) (slots_of event) ++
             filter (fun r => Bool.eqb (isFinal r) false) (slots_of event))).
  split.
  - unfold fragment_list. apply Permutation_map, partition_by_tag.
  - unfold exec. rewrite onresult_run.
    unfold fragment_list, finalPart, interimPart, fragments_of.
    rewrite map_app, concat_app. reflexivity.
Qed.

Lemma filter_tag_same (b : bool) (l : list SpeechRecognitionResult) :
  Forall (fun r => isFinal r = b) l ->
  filter (fun r => Bool.eqb (isFinal r) b) l = l.
Proof.
  induction 1 as [|r l Hr _ IH]; simpl; [reflexivity|].
  rewrite Hr, eqb_reflx, IH. reflexivity.
Qed.

Lemma filter_tag_other (b : bool) (l : list SpeechRecognitionResult) :
  Forall (fun r => isFinal r = b) l ->
  filter (fun r => Bool.eqb (isFinal r) (negb b)) l = [].
Proof.
  induction 1 as [|r l Hr _ IH]; simpl; [reflexivity|].
  rewrite Hr, IH. destruct b; reflexivity.
Qed.

(** X21.  When no interim slot comes before a final one, the transcript is
    the fragments joined in slot order. *)
Theorem onresult_in_slot_order
    (pre finals interims : list SpeechRecognitionResult) (w : World) :
  Forall (fun r => isFinal r = true) finals ->
  Forall (fun r => isFinal r = false) interims ->
  latestTranscript
    (app (exec (onresult {| resultIndex := length pre;
                            results := pre ++ finals ++ interims |}) w)) =
  concat (fragment_list (finals ++ interims)).
Proof.
  intros Hf Hi. rewrite onresult_after_prefix.
  unfold fragments_of, fragment_list.
  rewrite !filter_app, !map_app, !concat_app.
  rewrite (filter_tag_same true finals Hf), (filter_tag_same false _ Hi).
  pose proof (filter_tag_other true finals Hf) as F3.
  pose proof (filter_tag_other false interims Hi) as F2.
  cbn [negb] in F2, F3. rewrite F2, F3.
  simpl. rewrite app_nil_r. reflexivity.
Qed.

Lemma onresult_in_slot_order_witness :
  latestTranscript
    (app (exec (onresult
                  {| resultIndex := length [slot true (js "old ")];
                     results := [slot true (js "old ")] ++
                                [slot true (js "one "); slot true (js "two ")]
                                ++ [slot false (js "thr")] |})
               world_talking)) =
  concat (fragment_list ([slot true (js "one "); slot true (js "two ")] ++
                         [slot false (js "thr")])).
Proof.
  apply (onresult_in_slot_order [slot true (js "old ")]
           [slot true (js "one "); slot true (js "two ")]
           [slot false (js "thr")] world_talking);
    repeat constructor.
Defined.

(** An interim slot before a final one is shown after it. *)
Example onresult_reorders :
  latestTranscript
    (app (exec (onresult {| resultIndex := 0;
                            results := [slot false (js "b");
                                        slot true (js "a")] |})
               world_talking)) = js "ab".
Proof. vm_compute. reflexivity. Qed.

(** *** What is on the screen *)

(** X22.  Every error callback leaves an error on the screen: for every
    code, the empty one included, the error text it sets is not empty, so
    the error paragraph is rendered, and the listening border is not. *)
Theorem onerror_always_visible (code : jsstring) (w : World) :
  exists msg,
    View.errorShown (View.render (app (exec (onerror code) w))) = Some msg /\
    msg <> [] /\
    View.listeningBorder (View.render (app (exec (onerror code) w))) = false.
Proof.
  rewrite exec_onerror. unfold View.render, View.errorParagraph.
  cbn [app error isListening View.errorShown View.listeningBorder].
  destruct (jsstring_eqb code code_no_speech).
  - exists msg_no_speech. repeat split. discriminate.
  - exists (msg_error_prefix ++ code). repeat split. discriminate.
Qed.

(** X23.  The viewer never shows an empty text, and it shows its prompt
    after every end callback and after every toggle from the idle state,
    with or without the recogniser. *)
Theorem viewer_shows_prompt_when_idle :
  (forall t, View.FullScreenTextViewer t <> []) /\
  (forall w, View.viewer (View.render (app (exec onend w))) =
             View.placeholder) /\
  (forall w,
     isListening (app w) = false ->
     View.viewer (View.render (app (exec toggleListening w))) =
     View.placeholder).
Proof.
  split; [|split].
  - intros [|c t]; simpl; discriminate.
  - intros w. rewrite exec_onend. reflexivity.
  - intros w Hl. destruct (recognition w) as [r|] eqn:Hr.
    + rewrite (exec_toggle w r Hr), Hl. reflexivity.
    + unfold exec. rewrite (toggle_without_recognition w Hr Hl). reflexivity.
Qed.

Lemma viewer_shows_prompt_when_idle_witness :
  View.viewer (View.render (app (exec toggleListening world_unsupported))) =
  View.placeholder.
Proof.
  apply (proj2 (proj2 viewer_shows_prompt_when_idle)). reflexivity.
Defined.

(** X24.  The error text survives until the next toggle from the idle
    state: results and end callbacks do not touch it, and a toggle while
    listening keeps it too. *)
Theorem error_cleared_only_by_start (w : World) (t : Z) (e : Event) :
  installed w ->
  (e = Clicked -> isListening (app w) = true) ->
  (forall code, e <> ErrorEvent code) ->
  error (app (step w (t, e))) = error (app w).
Proof.
  intros Hi Hclick Hne. destruct e as [ | | event | | code ].
  - destruct Hi as (r & Hr & _). unfold step, exec, dispatch, mountEffect.
    cbn [fst snd at_time recognition]. rewrite Hr. reflexivity.
  - destruct Hi as (r & Hr & _). unfold step, dispatch. cbn [fst snd].
    rewrite (exec_toggle (at_time t w) r Hr).
    cbn [at_time app isListening error]. rewrite (Hclick eq_refl).
    reflexivity.
  - rewrite step_result by exact Hi. reflexivity.
  - rewrite step_end by exact Hi. rewrite exec_onend. reflexivity.
  - exfalso. apply (Hne code). reflexivity.
Qed.

Lemma error_cleared_only_by_start_witness :
  error (app (step (exec (onerror (js "network")) world_talking)
                   (8, EndEvent))) =
  error (app (exec (onerror (js "network")) world_talking)).
Proof.
  apply (error_cleared_only_by_start
           (exec (onerror (js "network")) world_talking) 8 EndEvent).
  - eexists; split; reflexivity.
  - discriminate.
  - discriminate.
Defined.

End SessionProperties.

(* ================================================================== *)
(** ** Facts about the update queue *)
(* ================================================================== *)

Module ReactQueueFacts.

Import Session Protocol ReactQueue JsStringFacts SessionFacts.
Local Open Scope Z_scope.

(** *** Running the queues *)

Lemma run_messages_queue_spec (now : Z) (q : list MessagesUpdate) :
  forall msgs,
    run_messages_queue now q msgs = msgs ++ map (stamped now) q.
Proof.
  unfold run_messages_queue.
  induction q as [|u q IH]; intros msgs; simpl.
  - rewrite app_nil_r. reflexivity.
  - rewrite IH. destruct u. simpl. rewrite <- app_assoc. reflexivity.
Qed.

Lemma run_transcript_queue_extends (q : list TranscriptUpdate) :
  forall value qm,
    exists added,
      snd (run_transcript_queue q value qm) = qm ++ added.
Proof.
  induction q as [|u q IH]; intros value qm; simpl.
  - exists []. rewrite app_nil_r. reflexivity.
  - destruct u; [apply IH|].
    destruct (truthy (trim value)); [|apply IH].
    destruct (IH [] (qm ++ [MAppend value])) as (added & ->).
    eexists. rewrite <- app_assoc. reflexivity.
Qed.

(** A callback changes nothing of what is shown: it only queues. *)
Lemma deliver_shown (e : Event) (c : Component) :
  shown (fst (deliver e c)) = shown c.
Proof.
  destruct e as [ | | event | | code ]; simpl.
  - unfold mountEffect_queued. destruct (platform c); reflexivity.
  - unfold toggleListening_queued, queue_send.
    destruct (isListening (shown c)); simpl;
      destruct (platform c); reflexivity.
  - unfold when_installed_queued, onresult_queued.
    destruct (platform c) as [r|]; [|reflexivity].
    destruct (handlers r); [|reflexivity].
    destruct (onresult_loop _ _ _ _ _) as [[? ?]| |]; reflexivity.
  - unfold when_installed_queued.
    destruct (platform c) as [r|]; [|reflexivity].
    destruct (handlers r); reflexivity.
  - unfold when_installed_queued.
    destruct (platform c) as [r|]; [|reflexivity].
    destruct (handlers r); reflexivity.
Qed.

(** A render adds to the history the messages its queue asks for, all
    stamped with the reading of the clock at the render. *)
Lemma render_messages (now : Z) (c : Component) :
  exists added,
    messages (shown (render now c)) =
    messages (shown c) ++ map (stamped now) added.
Proof.
  unfold render.
  destruct (run_transcript_queue (q_latestTranscript (pending c))
              (latestTranscript (shown c)) (q_messages (pending c)))
    as [t qm]. simpl.
  exists qm. apply run_messages_queue_spec.
Qed.

(** *** The two models agree

    A callback delivered to a freshly rendered component, followed by a
    render at clock reading [now], gives the world that [Session.step]
    computes for the reading [now], and completes as it does. *)
Lemma render_after_callback (w : World) (now : Z) (e : Event) :
  world_of (render now (fst (deliver e (at_reading now (component_of w))))) =
    step w (now, e) /\
  snd (deliver e (at_reading now (component_of w))) =
    outcome (dispatch e) (at_time now w).
Proof.
  destruct w as [[l t m er] rec c].
  destruct e as [ | | event | | code ]; unfold step, outcome, exec;
    cbn [fst snd dispatch deliver].
  - destruct rec; split; reflexivity.
  - destruct l, rec; split; reflexivity.
  - unfold when_installed, when_installed_queued. simpl.
    destruct rec as [r|]; [|split; reflexivity].
    destruct (handlers r); [|split; reflexivity].
    rewrite onresult_run. unfold onresult_queued.
    rewrite onresult_loop_spec by lia. split; reflexivity.
  - unfold when_installed, when_installed_queued. simpl.
    destruct rec as [r|]; [|split; reflexivity].
    destruct (handlers r); [|split; reflexivity].
    rewrite onend_run. unfold render. simpl.
    destruct (truthy (trim t)); split; reflexivity.
  - unfold when_installed, when_installed_queued. simpl.
    destruct rec as [r|]; [|split; reflexivity].
    destruct (handlers r); [|split; reflexivity].
    rewrite onerror_run. split; reflexivity.
Qed.

(** *** The end of a session *)




(** *** The order of the timestamps *)

Lemma sorted_app_stamps (l : list Z) (t : Z) (n : nat) :
  StronglySorted Z.le l ->
  Forall (fun x => x <= t) l ->
  StronglySorted Z.le (l ++ repeat t n).
Proof.
  induction 1 as [|a l Hs IH Ha]; intros Hle; simpl.
  - induction n as [|n IHn]; simpl; constructor; [exact IHn|].
    apply Forall_forall. intros x Hx. apply repeat_spec in Hx. lia.
  - inversion Hle; subst. constructor; [auto|].
    apply Forall_app. split; [exact Ha|].
    apply Forall_forall. intros x Hx. apply repeat_spec in Hx. lia.
Qed.

Lemma map_timestamp_stamped (now : Z) (added : list MessagesUpdate) :
  map timestamp (map (stamped now) added) = repeat now (length added).
Proof.
  induction added as [|u added IH]; simpl; [reflexivity|].
  rewrite IH. destruct u; reflexivity.
Qed.

(** One occurrence leaves the history alone or adds messages that carry
    the reading of the clock at that occurrence. *)
Lemma occur_messages (c : Component) (o : Z * Occurrence) :
  exists n,
    map timestamp (messages (shown (occur c o))) =
    map timestamp (messages (shown c)) ++ repeat (fst o) n.
Proof.
  unfold occur. destruct (snd o) as [e|].
  - exists 0%nat. rewrite deliver_shown. simpl. rewrite app_nil_r.
    reflexivity.
  - destruct (render_messages (fst o) c) as (added & ->).
    exists (length added). rewrite map_app, map_timestamp_stamped.
    reflexivity.
Qed.

Lemma play_timestamps_sorted (trace : list (Z * Occurrence)) :
  forall c,
    StronglySorted Z.le (map fst trace) ->
    StronglySorted Z.le (map timestamp (messages (shown c))) ->
    Forall (fun x => Forall (Z.le x) (map fst trace))
           (map timestamp (messages (shown c))) ->
    StronglySorted Z.le (map timestamp (messages (shown (play c trace)))).
Proof.
  induction trace as [|o trace IH]; intros c Htr Hs Hold; simpl;
    [exact Hs|].
  simpl in Htr. apply StronglySorted_inv in Htr as [Htr Ho].
  destruct (occur_messages c o) as (n & E).
  apply IH; [exact Htr | |]; rewrite E.
  - apply sorted_app_stamps; [exact Hs|].
    eapply Forall_impl; [|exact Hold]. intros x Hx. simpl in Hx.
    inversion Hx; assumption.
  - apply Forall_app. split.
    + eapply Forall_impl; [|exact Hold]. intros x Hx. simpl in Hx.
      inversion Hx; assumption.
    + apply Forall_forall. intros x Hx. apply repeat_spec in Hx. subst x.
      exact Ho.
Qed.

(** X17.  When the clock never goes backwards along a trace of callbacks,
    clicks and renders, the timestamps of the history never decrease, and
    so neither do the React keys of the list items. *)
Theorem history_timestamps_never_decrease
    (supported : bool) (now : Z) (trace : list (Z * Occurrence)) :
  StronglySorted Z.le (map fst trace) ->
  StronglySorted Z.le
    (map timestamp
       (messages (shown (play (initialComponent supported now) trace)))) /\
  (forall items,
     View.ConversationHistory
       (messages (shown (play (initialComponent supported now) trace))) =
     Some items ->
     StronglySorted Z.le (map View.key items)).
Proof.
  intros Htr.
  assert (Hs : StronglySorted Z.le
                 (map timestamp
                    (messages
                       (shown (play (initialComponent supported now)
                                    trace))))).
  { apply play_timestamps_sorted; [exact Htr | constructor | constructor]. }
  split; [exact Hs|].
  intros items. unfold View.ConversationHistory.
  destruct (length _ =? 0)%nat; [discriminate|].
  intros E. injection E as <-. rewrite map_map. simpl. exact Hs.
Qed.

Lemma history_timestamps_never_decrease_witness :
  StronglySorted Z.le
    (map timestamp
       (messages (shown (play (initialComponent true 0)
                              two_sessions_one_render)))) /\
  (forall items,
     View.ConversationHistory
       (messages (shown (play (initialComponent true 0)
                              two_sessions_one_render))) =
     Some items ->
     StronglySorted Z.le (map View.key items)).
Proof.
  apply (history_timestamps_never_decrease true 0 two_sessions_one_render).
  unfold two_sessions_one_render. simpl.
  repeat (constructor; [| repeat (constructor; try lia)]).
  constructor.
Defined.

(** The timestamps need not be distinct, though: two end callbacks handled
    by one render give two messages with the same timestamp, hence two
    list items with the same key. *)
Example one_render_same_key :
  option_map (map View.key)
    (View.ConversationHistory
       (messages (shown (play (initialComponent true 0)
                              two_sessions_one_render)))) =
  Some [7; 7].
Proof. vm_compute. reflexivity. Qed.

End ReactQueueFacts.
